(** * Transform composition and invertibility engine (monai.transforms.compose)

    A shallow embedding of [Compose] (src/monai/transforms/compose.py), of
    the small transform classes of src/tests/test_one_of.py, and of the
    collaborators the sources import but do not contain ([Randomizable],
    the trace protocol of [InvertibleTransform], [OneOf]), followed by the
    properties of the pipeline engine.

    Conventions of the embedding.
    - Python objects that the engine passes around live in a [heap]: a
      location names an object, a write changes it in place, an allocation
      appends.  This keeps in-place mutation and [deepcopy] apart.
    - A transform object is a tree ([Leaf], [ComposeT], [OneOfT]); the only
      mutable part of a transform is its private generator [R], and every
      operation that can advance a generator returns the updated transform.
    - A raised exception is a value [Raise e] of [result]; state changes made
      before the exception are kept, as in Python.
    - Python floats are the kernel's binary64 floats. *)

From Stdlib Require Import ZArith Floats Lia.
From stdpp Require Import gmap strings list fin_maps.

Set Default Proof Using "Type".

(** ** Exceptions and results *)

Inductive exn :=
| RuntimeError (msg : string)
| TypeError (msg : string)
| KeyError (key : string)
| IndexError (msg : string)
| AttributeError (msg : string)
| AssertionError (msg : string).

Inductive result (A : Type) :=
| Ok (a : A)
| Raise (e : exn).
Arguments Ok {A} a.
Arguments Raise {A} e.

Definition is_Ok {A} (r : result A) : bool :=
  match r with Ok _ => true | Raise _ => false end.

(** ** Records, trace entries and the object heap *)

(** One trace entry: the class identifier and the identity of the transform
    object that pushed it ([self.__class__.__name__] and [id(self)]), and
    the extra parameters it needs to undo itself. *)
Record trace_entry := TraceEntry {
  class_name : string;
  instance_id : nat;
  extra_info : gmap string nat
}.

(** A value stored under a key of a record: a number, or (under a trace key)
    the stack of trace entries of a key. *)
Inductive value :=
| VFloat (x : float)
| VTrace (l : list trace_entry).

(** The data a pipeline is applied to: [None], a bare scalar, or a keyed
    mapping.  List batches are outside the modelled data domain. *)
Inductive pyobj :=
| PNone
| PFloat (x : float)
| PMap (d : gmap string value).

Definition is_Mapping (o : pyobj) : bool :=
  match o with PMap _ => true | _ => false end.

Definition loc := nat.
Abbreviation heap := (list pyobj).

(** Reading a location; a location that names no object reads as [None]. *)
Definition deref (h : heap) (l : loc) : pyobj := default PNone (h !! l).

(** Allocation of a new object. *)
Definition alloc (v : pyobj) (h : heap) : loc * heap := (length h, h ++ [v]).

(** What a leaf operation does with the object it is given: the content the
    argument object has after the call (an in-place mutation shows here), and
    either an exception or the returned object: [None] when the argument
    object itself is returned, [Some v] when a new object holding [v] is. *)
Definition effect : Type := pyobj → pyobj * result (option pyobj).

(** Committing the outcome of a leaf operation on the object at [x]. *)
Definition commit (x : loc) (h : heap) (out : pyobj * result (option pyobj))
    : heap * result loc :=
  let '(x', r) := out in
  let h1 := <[x := x']> h in
  match r with
  | Ok None => (h1, Ok x)
  | Ok (Some v) => let '(l, h2) := alloc v h1 in (h2, Ok l)
  | Raise e => (h1, Raise e)
  end.

Definition run_effect (f : effect) (x : loc) (h : heap) : heap * result loc :=
  commit x h (f (deref h x)).

(** ** The random generator

    NumPy's [RandomState] is an external collaborator: the engine only seeds
    it, draws bounded integers from it and (in [OneOf]) draws an index.
    [MAX_SEED] (monai.utils) is the bound of the integer draw. *)
Class NumpyRandom := {
  RandomState : Type;
  MAX_SEED : Z;
  (** [np.random.RandomState(seed)] *)
  new_RandomState : Z → RandomState;
  (** [R.randint(MAX_SEED, dtype="uint32")]: the drawn integer and the
      advanced generator *)
  randint_uint32 : RandomState → Z * RandomState;
  (** [R.multinomial(1, weights).argmax()] *)
  multinomial_argmax : list float → RandomState → nat * RandomState;
  randint_range : ∀ R, (0 ≤ (randint_uint32 R).1 < MAX_SEED)%Z;
  (** the index of the largest count is an index of the weight vector *)
  multinomial_range : ∀ ws R, 0 < length ws → (multinomial_argmax ws R).1 < length ws
}.

(** How [inverse] was called: [t.inverse(d)] or [t.inverse(d, keys)]. *)
Inductive inv_keys :=
| NotPassed
| Passed (keys : option (list string)).

Section Pipeline.
Context `{G : NumpyRandom}.

(** ** Transforms *)

(** A leaf transform.  [leaf_R] is the private generator of a Randomizable
    leaf and is absent for the others, so [isinstance(t, Randomizable)] is
    [is_Some (leaf_R t)]. *)
Record leaf := MkLeaf {
  leaf_name : string;
  leaf_invertible : bool;
  leaf_R : option RandomState;
  leaf_call : option RandomState → pyobj → option RandomState * (pyobj * result (option pyobj));
  leaf_inverse : inv_keys → effect;
  leaf_randomize : pyobj → RandomState → RandomState * option exn
}.

Definition leaf_set_R (l : leaf) (R : option RandomState) : leaf :=
  {| leaf_name := leaf_name l; leaf_invertible := leaf_invertible l; leaf_R := R;
     leaf_call := leaf_call l; leaf_inverse := leaf_inverse l;
     leaf_randomize := leaf_randomize l |}.

(** [OneOf] extends [Compose]; both carry their own generator and their
    member tuple. *)
Local Unset Elimination Schemes.
Inductive transform :=
| Leaf (l : leaf)
| ComposeT (R : RandomState) (transforms : list transform)
| OneOfT (R : RandomState) (transforms : list transform) (weights : list float).
Local Set Elimination Schemes.

(** [isinstance(t, Randomizable)]: [Compose] is declared
    [class Compose(Randomizable, Transform, InvertibleTransform)]. *)
Definition is_Randomizable (t : transform) : bool :=
  match t with
  | Leaf l => bool_decide (is_Some (leaf_R l))
  | ComposeT _ _ | OneOfT _ _ _ => true
  end.

(** [isinstance(t, InvertibleTransform)] *)
Definition is_Invertible (t : transform) : bool :=
  match t with
  | Leaf l => leaf_invertible l
  | ComposeT _ _ | OneOfT _ _ _ => true
  end.

(** [isinstance(t, Compose)] *)
Definition is_Compose (t : transform) : bool :=
  match t with
  | Leaf _ => false
  | ComposeT _ _ | OneOfT _ _ _ => true
  end.

(** [type(t).__name__] *)
Definition type_name (t : transform) : string :=
  match t with
  | Leaf l => leaf_name l
  | ComposeT _ _ => "Compose"
  | OneOfT _ _ _ => "OneOf"
  end.

(** ** [Compose.__len__]

    [sum(len(t) if isinstance(t, Compose) else 1 for t in self.transforms)].
    A member that is a [Compose] is asked for its own length.  [OneOf], of
    which the sources hold the tests only, extends [Compose] (so
    [isinstance(t, Compose)] holds for it) and has this [__len__] too:
    tests/test_one_of.py expects [len] 5 of a [OneOf] of two [OneOf]s of two
    candidates each and one plain transform. *)
Definition sum_len_with (len : transform → nat) : list transform → nat :=
  fix go (ts : list transform) : nat :=
    match ts with
    | [] => 0
    | t :: ts' => (if is_Compose t then len t else 1) + go ts'
    end.

Fixpoint len (t : transform) : nat :=
  match t with
  | Leaf _ => 1   (* the [else 1] of the source: a member that is no Compose *)
  | ComposeT _ ts => sum_len_with len ts
  | OneOfT _ ts _ => sum_len_with len ts
  end.

Definition Compose_len (ts : list transform) : nat := sum_len_with len ts.

(** The leaves of a pipeline, nested pipelines unrolled. *)
Fixpoint leaves (t : transform) : list leaf :=
  match t with
  | Leaf l => [l]
  | ComposeT _ ts => (fix go (ts : list transform) : list leaf :=
                        match ts with [] => [] | t :: ts' => leaves t ++ go ts' end) ts
  | OneOfT _ ts _ => (fix go (ts : list transform) : list leaf :=
                        match ts with [] => [] | t :: ts' => leaves t ++ go ts' end) ts
  end.

(** ** Seeding *)

(** Modelled from the spec: [Randomizable.set_random_state(seed, state)]
    (monai.transforms.transform is not among the sources) replaces the
    private generator, from an explicit seed or from a supplied generator;
    with neither, [np.random.RandomState()] makes a generator from system
    entropy, which is the argument [entropy] here. *)
Definition Randomizable_set_random_state
    (seed : option Z) (state : option RandomState) (entropy : RandomState) : RandomState :=
  match seed, state with
  | Some s, _ => new_RandomState s
  | None, Some st => st
  | None, None => entropy
  end.

(** The loop of [Compose.set_random_state]: each Randomizable member is
    reseeded with one draw of the sequencer's generator [R]; [reseed t s] is
    [t.set_random_state(seed=s)]. *)
Definition reseed_members_with (reseed : transform → Z → transform)
    : RandomState → list transform → RandomState * list transform :=
  fix go (R : RandomState) (ts : list transform) : RandomState * list transform :=
    match ts with
    | [] => (R, [])
    | t :: ts' =>
        if is_Randomizable t then
          let '(s, R1) := randint_uint32 R in
          let t' := reseed t s in
          let '(R2, ts'') := go R1 ts' in
          (R2, t' :: ts'')
        else
          let '(R2, ts'') := go R ts' in
          (R2, t :: ts'')
    end.

Fixpoint reseed (t : transform) (s : Z) : transform :=
  match t with
  | Leaf l => Leaf (leaf_set_R l (Some (new_RandomState s)))
  | ComposeT _ ts =>
      let '(R', ts') := reseed_members_with reseed (new_RandomState s) ts in
      ComposeT R' ts'
  | OneOfT _ ts w =>
      let '(R', ts') := reseed_members_with reseed (new_RandomState s) ts in
      OneOfT R' ts' w
  end.

Definition reseed_members := reseed_members_with reseed.

(** [Compose.set_random_state(seed, state)] on a sequencer whose member tuple
    is [ts]: the new generator of the sequencer and the members after it. *)
Definition Compose_set_random_state (ts : list transform)
    (seed : option Z) (state : option RandomState) (entropy : RandomState)
    : RandomState * list transform :=
  reseed_members (Randomizable_set_random_state seed state entropy) ts.

(** [t.set_random_state(seed, state)] for any Randomizable transform. *)
Definition set_random_state (t : transform)
    (seed : option Z) (state : option RandomState) (entropy : RandomState) : transform :=
  match t with
  | Leaf l => Leaf (leaf_set_R l (Some (Randomizable_set_random_state seed state entropy)))
  | ComposeT _ ts =>
      let '(R', ts') := Compose_set_random_state ts seed state entropy in ComposeT R' ts'
  | OneOfT _ ts w =>
      let '(R', ts') := Compose_set_random_state ts seed state entropy in OneOfT R' ts' w
  end.

(** [Compose.__init__(transforms)].  [monai.utils.ensure_tuple] turns the
    argument into a tuple, [get_seed()] returns the process-wide seed, which
    is [None] unless determinism was requested. *)
Inductive init_arg :=
| ArgNone
| ArgOne (t : transform)
| ArgSeq (ts : list transform).

Definition ensure_tuple (a : init_arg) : list transform :=
  match a with
  | ArgNone => []
  | ArgOne t => [t]
  | ArgSeq ts => ts
  end.

Definition Compose_init (transforms : init_arg) (get_seed : option Z) (entropy : RandomState)
    : transform :=
  let ts := ensure_tuple transforms in
  let '(R', ts') := Compose_set_random_state ts get_seed None entropy in
  ComposeT R' ts'.

(** The first [n] draws of a generator, and the generator after them. *)
Fixpoint draws (n : nat) (R : RandomState) : list Z * RandomState :=
  match n with
  | 0 => ([], R)
  | S n' => let '(s, R1) := randint_uint32 R in
            let '(l, R2) := draws n' R1 in (s :: l, R2)
  end.

(** The seeds [Compose.set_random_state] hands to the members: one draw per
    Randomizable member, in sequence order. *)
Definition child_seeds (R : RandomState) (ts : list transform) : list Z :=
  (draws (length (filter (λ t, is_Randomizable t = true) ts)) R).1.

(** Handing a list of seeds to the Randomizable members, in sequence order. *)
Fixpoint assign_seeds (ts : list transform) (seeds : list Z) : list transform :=
  match ts with
  | [] => []
  | t :: ts' =>
      if is_Randomizable t then
        match seeds with
        | s :: seeds' => reseed t s :: assign_seeds ts' seeds'
        | [] => t :: assign_seeds ts' []
        end
      else t :: assign_seeds ts' seeds
  end.

(** ** The trace protocol *)

Definition KEY_SUFFIX : string := "_transforms".

(** The reserved field that holds the trace entries of [key]. *)
Definition trace_key (key : string) : string := key +:+ KEY_SUFFIX.

(** The trace entries recorded for [key], oldest first. *)
Definition traces (d : gmap string value) (key : string) : list trace_entry :=
  match d !! trace_key key with
  | Some (VTrace l) => l
  | _ => []
  end.

(** Modelled from the spec: [push_transform(record, key, extra_info)] of the
    invertible-transform contract (monai.transforms.inverse_transform is not
    among the sources) appends a trace entry carrying the class identifier
    [cls] and the identity [self] of the calling object, and the extra
    parameters. *)
Definition push_transform (cls : string) (self : nat) (d : gmap string value) (key : string)
    (extra : gmap string nat) : gmap string value :=
  <[trace_key key := VTrace (traces d key ++ [TraceEntry cls self extra])]> d.

Definition out_of_order : exn :=
  RuntimeError "Should inverse most recently applied invertible transform first".

(** An entry belongs to a transform object when it carries the class
    identifier of the object and was pushed by the object itself:
    tests/test_inverse.py (lines 200-203) takes a new transform of the class
    of the one applied last and requires its [inverse] to raise. *)
Definition pushed_by (cls : string) (self : nat) (e : trace_entry) : Prop :=
  class_name e = cls ∧ instance_id e = self.

Global Instance pushed_by_dec cls self e : Decision (pushed_by cls self e).
Proof. unfold pushed_by. apply _. Defined.

(** Modelled from the spec: [pop_transform(record, key)] removes and returns
    the most recent trace entry of [key]; it fails with a usage error when
    the top entry does not belong to the caller, and when there is no entry
    at all. *)
Definition pop_transform (cls : string) (self : nat) (d : gmap string value) (key : string)
    : result (trace_entry * gmap string value) :=
  match last (traces d key) with
  | None => Raise out_of_order
  | Some e =>
      if decide (pushed_by cls self e)
      then Ok (e, <[trace_key key := VTrace (removelast (traces d key))]> d)
      else Raise out_of_order
  end.

(** ** [Compose.randomize] *)

Definition quote : string := String (Ascii.ascii_of_nat 34) EmptyString.
Definition newline : string := String (Ascii.ascii_of_nat 10) EmptyString.

(** The text of the [RuntimeWarning] of [Compose.randomize]. *)
Definition not_randomized (tfm_name type_error : string) : string :=
  "Transform " +:+ quote +:+ tfm_name +:+ quote +:+ " in Compose not randomized"
    +:+ newline +:+ tfm_name +:+ "." +:+ type_error +:+ ".".

(** The outcome of a [randomize] call: the transforms after it, the warnings
    issued in order, and the exception that ended it, if any. *)
Definition randomize_members_with
    (randomize : transform → pyobj → transform * list string * option exn) (data : pyobj)
    : list transform → list transform * list string * option exn :=
  fix go (ts : list transform) : list transform * list string * option exn :=
    match ts with
    | [] => ([], [], None)
    | t :: ts' =>
        if is_Randomizable t then
          let '(t', w, r) := randomize t data in
          match r with
          | None =>
              let '(ts'', w', r') := go ts' in (t' :: ts'', w ++ w', r')
          | Some (TypeError type_error) =>
              let '(ts'', w', r') := go ts' in
              (t' :: ts'', w ++ not_randomized (type_name t) type_error :: w', r')
          | Some e => (t' :: ts', w, Some e)
          end
        else
          let '(ts'', w', r') := go ts' in (t :: ts'', w', r')
    end.

Fixpoint randomize (t : transform) (data : pyobj) : transform * list string * option exn :=
  match t with
  | Leaf l =>
      match leaf_R l with
      | Some R => let '(R', r) := leaf_randomize l data R in
                  (Leaf (leaf_set_R l (Some R')), [], r)
      | None => (t, [], Some (AttributeError "randomize"))
      end
  | ComposeT R ts =>
      let '(ts', w, r) := randomize_members_with randomize data ts in (ComposeT R ts', w, r)
  | OneOfT R ts ws =>
      let '(ts', w, r) := randomize_members_with randomize data ts in (OneOfT R ts' ws, w, r)
  end.

Definition randomize_members := randomize_members_with randomize.

(** [Compose.randomize(data)] on a sequencer with members [ts]. *)
Definition Compose_randomize (ts : list transform) (data : pyobj)
    : list transform * list string * option exn :=
  randomize_members data ts.

(** ** [OneOf]: recording and reading the selected branch *)

(** The model does not tell two [OneOf] objects apart (identity by class,
    as the spec has it): the entries of [OneOf] carry the class identifier
    and one identity, [OneOf_id], for all of them. *)
Definition OneOf_id : nat := 0.

Definition OneOf_entry (index : nat) : trace_entry :=
  TraceEntry "OneOf" OneOf_id {["index" := index]}.

(** Modelled from the spec: on application [OneOf] records, per touched key
    (a key that has a trace field), a trace entry tagging [OneOf] and the
    selected index. *)
Definition OneOf_push_key (index : nat) (key : string) (d : gmap string value)
    : gmap string value :=
  match d !! trace_key key with
  | Some (VTrace _) => push_transform "OneOf" OneOf_id d key {["index" := index]}
  | _ => d
  end.

Definition OneOf_push (index : nat) (d : gmap string value) : gmap string value :=
  foldr (OneOf_push_key index) d (map_to_list d).*1.

(** Modelled from the spec: on inversion [OneOf] reads the last trace entry
    per key; an entry that [OneOf] did not push leaves that key alone;
    otherwise the recorded branch index is read and the entry is popped. *)
Definition OneOf_pop_key (key : string) (st : result (option nat * gmap string value))
    : result (option nat * gmap string value) :=
  match st with
  | Raise e => Raise e
  | Ok (index, d) =>
      match last (traces d key) with
      | None => Ok (index, d)
      | Some e =>
          if decide (pushed_by "OneOf" OneOf_id e) then
            match extra_info e !! "index" with
            | None => Raise (KeyError "index")
            | Some i =>
                match pop_transform "OneOf" OneOf_id d key with
                | Ok (_, d') => Ok (Some i, d')
                | Raise e => Raise e
                end
            end
          else Ok (index, d)
      end
  end.

Definition OneOf_pop (d : gmap string value) : result (option nat * gmap string value) :=
  foldr OneOf_pop_key (Ok (None, d)) (map_to_list d).*1.

(** ** Application *)

(** Modelled from the spec: [apply_transform(transform, data)]
    (monai.transforms.utils is not among the sources) applies the transform
    to the data and lets an exception of the transform propagate. *)
Definition apply_transform_with (call : transform → loc → heap → transform * heap * result loc)
    (t : transform) (data : loc) (h : heap) : transform * heap * result loc :=
  call t data h.

(** The loop of [Compose.__call__]. *)
Definition call_loop_with (call : transform → loc → heap → transform * heap * result loc)
    : list transform → loc → heap → list transform * heap * result loc :=
  fix go (ts : list transform) (input_ : loc) (h : heap)
      : list transform * heap * result loc :=
    match ts with
    | [] => ([], h, Ok input_)
    | t :: ts' =>
        let '(t', h1, r) := apply_transform_with call t input_ h in
        match r with
        | Ok out =>
            let '(ts'', h2, r') := go ts' out h1 in (t' :: ts'', h2, r')
        | Raise e => (t' :: ts', h1, Raise e)
        end
    end.

(** Applying the member at [index] of a tuple; the member may advance its
    generator, so the tuple after the call is returned too. *)
Definition call_at_with (call : transform → loc → heap → transform * heap * result loc)
    (data : loc) (h : heap) : list transform → nat → list transform * heap * result loc :=
  fix go (ts : list transform) (index : nat) : list transform * heap * result loc :=
    match ts, index with
    | [], _ => ([], h, Raise (IndexError "tuple index out of range"))
    | t :: ts', 0 =>
        let '(t', h1, r) := apply_transform_with call t data h in (t' :: ts', h1, r)
    | t :: ts', S i =>
        let '(ts'', h1, r) := go ts' i in (t :: ts'', h1, r)
    end.

(** [OneOf.__call__] once the index is drawn.  Modelled from the spec: only
    the selected candidate is applied; when the input is a keyed mapping the
    selected index is recorded in the returned record. *)
Definition OneOf_call_at_with (call : transform → loc → heap → transform * heap * result loc)
    (ts : list transform) (index : nat) (data : loc) (h : heap)
    : list transform * heap * result loc :=
  let '(ts', h1, r) := call_at_with call data h ts index in
  match r with
  | Raise e => (ts', h1, Raise e)
  | Ok out =>
      match deref h data, deref h1 out with
      | PMap _, PMap d => (ts', <[out := PMap (OneOf_push index d)]> h1, Ok out)
      | _, _ => (ts', h1, Ok out)
      end
  end.

Fixpoint call (t : transform) (input_ : loc) (h : heap) : transform * heap * result loc :=
  match t with
  | Leaf l =>
      let '(R', out) := leaf_call l (leaf_R l) (deref h input_) in
      let '(h', r) := commit input_ h out in
      (Leaf (leaf_set_R l R'), h', r)
  | ComposeT R ts =>
      let '(ts', h', r) := call_loop_with call ts input_ h in
      (ComposeT R ts', h', r)
  | OneOfT R ts ws =>
      let '(index, R') := multinomial_argmax ws R in
      let '(ts', h', r) := OneOf_call_at_with call ts index input_ h in
      (OneOfT R' ts' ws, h', r)
  end.

Definition apply_transform := apply_transform_with call.
Definition call_loop := call_loop_with call.
Definition call_at := call_at_with call.
Definition OneOf_call_at := OneOf_call_at_with call.

(** [Compose.__call__(input_)] on a sequencer with members [ts]. *)
Definition Compose_call (ts : list transform) (input_ : loc) (h : heap)
    : list transform * heap * result loc :=
  call_loop ts input_ h.

(** ** Inversion *)

Definition not_a_mapping : exn :=
  RuntimeError "Inverse method only available for dictionary transforms".

(** The loop of [Compose.inverse]: [for t in reversed(self.transforms)].  The
    tuple is walked from its end, so the recursion first goes to the end of
    the tuple and handles the head last ([inverse_loop_rev] below states it
    as a left-to-right walk of [rev ts]). *)
Definition inverse_loop_with
    (inverse : transform → inv_keys → loc → heap → heap * result loc)
    (keys : option (list string))
    : list transform → loc → heap → heap * result loc :=
  fix go (ts : list transform) (d : loc) (h : heap) : heap * result loc :=
    match ts with
    | [] => (h, Ok d)
    | t :: ts' =>
        let '(h1, r) := go ts' d h in
        match r with
        | Raise e => (h1, Raise e)
        | Ok d1 =>
            if is_Invertible t then inverse t (Passed keys) d1 h1 else (h1, Ok d1)
        end
    end.

(** [Compose.inverse(data, keys)].  [keys] is an optional tuple, on which
    [ensure_tuple] changes nothing. *)
Definition Compose_inverse_with
    (inverse : transform → inv_keys → loc → heap → heap * result loc)
    (ts : list transform) (keys : option (list string)) (data : loc) (h : heap)
    : heap * result loc :=
  match deref h data with
  | PMap m =>
      let '(d, h1) := alloc (PMap m) h in      (* d = deepcopy(dict(data)) *)
      inverse_loop_with inverse keys ts d h1
  | _ => (h, Raise not_a_mapping)
  end.

Definition not_invertible : exn :=
  RuntimeError "Applied OneOf transform is not invertible".

(** Inverting with the member at [index]. *)
Definition inverse_at_with
    (inverse : transform → inv_keys → loc → heap → heap * result loc)
    (data : loc) (h : heap) : list transform → nat → heap * result loc :=
  fix go (ts : list transform) (index : nat) : heap * result loc :=
    match ts, index with
    | [], _ => (h, Raise (IndexError "tuple index out of range"))
    | t :: _, 0 =>
        if is_Invertible t then inverse t NotPassed data h else (h, Raise not_invertible)
    | _ :: ts', S i => go ts' i
    end.

Definition nothing_applied : exn :=
  RuntimeError "No invertible transforms have been applied".

(** Whether a key has at least one trace entry. *)
Definition has_entries (d : gmap string value) (key : string) : bool :=
  match traces d key with [] => false | _ :: _ => true end.

(** Modelled from the spec: [OneOf.inverse(record)].  The record must be a
    keyed mapping; the entries [OneOf] pushed are popped and the recorded
    index selects the branch whose [inverse] is invoked, on the record only;
    a selected branch that is not invertible is a usage error.  When no key
    carries an entry of [OneOf], the call changes nothing if some key carries
    entries of other transforms (they are not this [OneOf]'s to undo), and is
    a usage error if no key carries any entry: then nothing invertible was
    applied (tests/test_one_of.py, [test_inverse] with the [NonInv]
    candidates). *)
Definition OneOf_inverse_with
    (inverse : transform → inv_keys → loc → heap → heap * result loc)
    (ts : list transform) (data : loc) (h : heap) : heap * result loc :=
  match deref h data with
  | PMap m =>
      match OneOf_pop m with
      | Raise e => (h, Raise e)
      | Ok (Some index, m') =>
          inverse_at_with inverse data (<[data := PMap m']> h) ts index
      | Ok (None, _) =>
          if existsb (has_entries m) (map_to_list m).*1
          then (h, Ok data)
          else (h, Raise nothing_applied)
      end
  | _ => (h, Raise not_a_mapping)
  end.

(** As a member of a [Compose], [OneOf] is handed the [keys] argument of
    [Compose.inverse]; it reads the keys from the record and does not use
    the argument. *)
Fixpoint inverse (t : transform) (k : inv_keys) (data : loc) (h : heap) : heap * result loc :=
  match t with
  | Leaf l => run_effect (leaf_inverse l k) data h
  | ComposeT _ ts =>
      Compose_inverse_with inverse ts (match k with NotPassed => None | Passed keys => keys end)
        data h
  | OneOfT _ ts _ => OneOf_inverse_with inverse ts data h
  end.

Definition inverse_loop := inverse_loop_with inverse.
Definition inverse_at := inverse_at_with inverse.
Definition OneOf_inverse := OneOf_inverse_with inverse.

(** [Compose.inverse(data, keys)] on a sequencer with members [ts]. *)
Definition Compose_inverse (ts : list transform) (keys : option (list string))
    (data : loc) (h : heap) : heap * result loc :=
  Compose_inverse_with inverse ts keys data h.

End Pipeline.

(** ** Construction of [OneOf] *)

Section OneOfConstruction.
Context `{G : NumpyRandom}.

Definition float_of_nat (n : nat) : float := PrimFloat.of_uint63 (Uint63.of_Z (Z.of_nat n)).

(** [sum(weights)], a left fold from zero. *)
Definition float_sum (ws : list float) : float := foldl PrimFloat.add 0%float ws.

Definition normalize_probabilities (ws : list float) : list float :=
  (λ w, w / float_sum ws)%float <$> ws.

(** Modelled from the spec: [OneOf(transforms, weights)] validates that
    there are as many weights as candidates, takes the uniform weight [1/n]
    when no weights are given, and stores each raw weight divided by the sum
    of the raw weights.  As a [Compose] it is seeded on construction. *)
Definition OneOf_init (transforms : list transform) (weights : option (list float))
    (get_seed : option Z) (entropy : RandomState) : result transform :=
  let n := length transforms in
  let ws := match weights with
            | None => replicate n (1 / float_of_nat n)%float
            | Some ws => ws
            end in
  if decide (length ws = n) then
    let '(R', ts') := Compose_set_random_state transforms get_seed None entropy in
    Ok (OneOfT R' ts' (normalize_probabilities ws))
  else Raise (AssertionError "transforms and weights should be same size")
.

End OneOfConstruction.

(** ** The transform classes of tests/test_one_of.py *)

Section TestClasses.
Context `{G : NumpyRandom}.

Local Open Scope float_scope.

(** A leaf with no generator and no [inverse]. *)
Definition plain (name : string) (f : effect) : leaf :=
  {| leaf_name := name; leaf_invertible := false; leaf_R := None;
     leaf_call := λ R x, (R, f x);
     leaf_inverse := λ _ x, (x, Raise (AttributeError "inverse"));
     leaf_randomize := λ _ R, (R, Some (AttributeError "randomize")) |}.

(** [return x]: the argument object itself is returned. *)
Definition return_x : effect := λ x, (x, Ok None).

(** [return x + c] on a scalar; a mapping or [None] cannot be added to. *)
Definition return_x_plus (c : float) : effect := λ x,
  (x, match x with
      | PFloat v => Ok (Some (PFloat (v + c)))
      | _ => Raise (TypeError "unsupported operand type(s) for +")
      end).

Definition X : transform := Leaf (plain "X" return_x).
Definition Y : transform := Leaf (plain "Y" return_x).
Definition A : transform := Leaf (plain "A" (return_x_plus 1)).
Definition B : transform := Leaf (plain "B" (return_x_plus 2)).
Definition C : transform := Leaf (plain "C" (return_x_plus 3)).

(** Modelled from the spec: [MapTransform.key_iterator] (not among the
    sources) yields the configured keys of a keyed transform in order; a
    configured key that the record lacks is a [KeyError].  The loops below
    follow it. *)

(** The loop of [MapBase.__call__]: [d[key] = self.fwd_fn(d[key])]. *)
Fixpoint MapBase_loop (fwd_fn : float → float) (keys : list string) (d : gmap string value)
    : result (gmap string value) :=
  match keys with
  | [] => Ok d
  | key :: keys' =>
      match d !! key with
      | None => Raise (KeyError key)
      | Some (VFloat x) => MapBase_loop fwd_fn keys' (<[key := VFloat (fwd_fn x)]> d)
      | Some (VTrace _) => Raise (TypeError "unsupported operand type(s)")
      end
  end.

(** The loop of [Inv.__call__]:
    [d[key] = self.fwd_fn(d[key]); self.push_transform(d, key)]. *)
Fixpoint Inv_call_loop (cls : string) (self : nat) (fwd_fn : float → float) (keys : list string)
    (d : gmap string value) : result (gmap string value) :=
  match keys with
  | [] => Ok d
  | key :: keys' =>
      match d !! key with
      | None => Raise (KeyError key)
      | Some (VFloat x) =>
          Inv_call_loop cls self fwd_fn keys' (push_transform cls self (<[key := VFloat (fwd_fn x)]> d) key ∅)
      | Some (VTrace _) => Raise (TypeError "unsupported operand type(s)")
      end
  end.

(** The loop of [Inv.inverse]:
    [d[key] = self.inv_fn(d[key]); self.pop_transform(d, key)]. *)
Fixpoint Inv_inverse_loop (cls : string) (self : nat) (inv_fn : float → float) (keys : list string)
    (d : gmap string value) : result (gmap string value) :=
  match keys with
  | [] => Ok d
  | key :: keys' =>
      match d !! key with
      | None => Raise (KeyError key)
      | Some (VFloat x) =>
          match pop_transform cls self (<[key := VFloat (inv_fn x)]> d) key with
          | Ok (_, d') => Inv_inverse_loop cls self inv_fn keys' d'
          | Raise e => Raise e
          end
      | Some (VTrace _) => Raise (TypeError "unsupported operand type(s)")
      end
  end.

(** [d = deepcopy(dict(data)); <loop>; return d]: the argument is left as it
    was and a new record is returned. *)
Definition on_copy (loop : gmap string value → result (gmap string value)) : effect := λ data,
  (data, match data with
         | PMap m => match loop m with
                     | Ok d => Ok (Some (PMap d))
                     | Raise e => Raise e
                     end
         | _ => Raise (TypeError "object is not iterable")
         end).

(** [class NonInv(MapBase)] with [fwd_fn = lambda x: x * 2]. *)
Definition NonInv (keys : list string) : transform :=
  Leaf (plain "NonInv" (on_copy (MapBase_loop (λ x, x * 2) keys))).

(** [class Inv(MapBase, InvertibleTransform)]; [inverse(self, data)] takes
    the record only.  [self] is the identity of the object, [id(self)]. *)
Definition Inv (cls : string) (self : nat) (fwd_fn inv_fn : float → float) (keys : list string) : leaf :=
  {| leaf_name := cls; leaf_invertible := true; leaf_R := None;
     leaf_call := λ R x, (R, on_copy (Inv_call_loop cls self fwd_fn keys) x);
     leaf_inverse := λ k x,
       match k with
       | NotPassed => on_copy (Inv_inverse_loop cls self inv_fn keys) x
       | Passed _ =>
           (x, Raise (TypeError "inverse() takes 2 positional arguments but 3 were given"))
       end;
     leaf_randomize := λ _ R, (R, Some (AttributeError "randomize")) |}.

Definition InvA (self : nat) (keys : list string) : transform :=
  Leaf (Inv "InvA" self (λ x, x + 1) (λ x, x - 1) keys).
Definition InvB (self : nat) (keys : list string) : transform :=
  Leaf (Inv "InvB" self (λ x, x + 100) (λ x, x - 100) keys).

Definition KEYS : list string := ["x"; "y"].

(** Two Randomizable transforms for the examples: [randomize(self, data)] of
    the first draws one integer from the private generator; the second
    declares [randomize(self)], so that a call with the data argument is
    rejected with a [TypeError]. *)
Definition Rand (R : RandomState) : transform :=
  Leaf {| leaf_name := "Rand"; leaf_invertible := false; leaf_R := Some R;
          leaf_call := λ R x, (R, return_x x);
          leaf_inverse := λ _ x, (x, Raise (AttributeError "inverse"));
          leaf_randomize := λ _ R, ((randint_uint32 R).2, None) |}.

Definition takes_no_data : string :=
  "randomize() takes 1 positional argument but 2 were given".

Definition RandNoData (R : RandomState) : transform :=
  Leaf {| leaf_name := "RandNoData"; leaf_invertible := false; leaf_R := Some R;
          leaf_call := λ R x, (R, return_x x);
          leaf_inverse := λ _ x, (x, Raise (AttributeError "inverse"));
          leaf_randomize := λ _ R, (R, Some (TypeError takes_no_data)) |}.

End TestClasses.

(** ** NumPy's legacy generator

    [RandomState] is the 32-bit Mersenne Twister: [RandomState(seed)] fills
    the key by the linear recurrence of [mt19937_seed], and a [uint32] draw
    below [2^32] is the next tempered word of the stream. *)
Module MT19937.

Local Open Scope Z_scope.

Definition uint32 (x : Z) : Z := Z.land x 0xFFFFFFFF.

Record state := State { key : list Z; pos : nat }.

Fixpoint seed_key (n : nat) (i : Z) (seed : Z) : list Z :=
  match n with
  | O => []
  | S n' =>
      seed :: seed_key n' (i + 1) (uint32 (1812433253 * Z.lxor seed (Z.shiftr seed 30) + i + 1))
  end.

(** [mt19937_seed] *)
Definition seed (s : Z) : state := State (seed_key 624 0 (uint32 s)) 624.

Definition UPPER_MASK : Z := 0x80000000.
Definition LOWER_MASK : Z := 0x7fffffff.
Definition MATRIX_A : Z := 0x9908b0df.

(** One step of [mt19937_gen], on the key updated in place. *)
Definition gen_step (k : list Z) (i : nat) : list Z :=
  let y := Z.lor (Z.land (k !!! i) UPPER_MASK) (Z.land (k !!! ((i + 1) mod 624)%nat) LOWER_MASK) in
  let v := Z.lxor (Z.lxor (k !!! ((i + 397) mod 624)%nat) (Z.shiftr y 1))
                  (if Z.odd y then MATRIX_A else 0) in
  <[i := v]> k.

Definition gen (k : list Z) : list Z := foldl gen_step k (seq 0 624).

Definition temper (y : Z) : Z :=
  let y := Z.lxor y (Z.shiftr y 11) in
  let y := Z.lxor y (Z.land (uint32 (Z.shiftl y 7)) 0x9d2c5680) in
  let y := Z.lxor y (Z.land (uint32 (Z.shiftl y 15)) 0xefc60000) in
  Z.lxor y (Z.shiftr y 18).

(** [mt19937_next] *)
Definition next (st : state) : Z * state :=
  let st1 := if decide (pos st = 624%nat) then State (gen (key st)) 0 else st in
  (uint32 (temper (key st1 !!! pos st1)), State (key st1) (S (pos st1))).

(** A stand-in for [multinomial(1, weights).argmax()]: one word of the stream,
    scaled to [0, 1), is compared with the running sums of the weights.
    (NumPy's binomial inversion needs [exp] and [log], which the kernel's
    floats do not have.) *)
Fixpoint pick (u : float) (acc : float) (i : nat) (ws : list float) : nat :=
  match ws with
  | [] => i
  | [w] => i
  | w :: ws' => if PrimFloat.ltb u (acc + w)%float then i else pick u (acc + w)%float (S i) ws'
  end.

Definition argmax_draw (ws : list float) (st : state) : nat * state :=
  let '(x, st') := next st in
  (pick (PrimFloat.of_uint63 (Uint63.of_Z x) / 4294967296)%float 0%float 0 ws, st').

Lemma pick_range u acc i ws : (0 < length ws → pick u acc i ws < i + length ws)%nat.
Proof.
  revert acc i. induction ws as [|w ws IH]; intros acc i Hlen; [simpl in Hlen; lia|].
  destruct ws as [|w' ws']; [simpl; lia|].
  change (pick u acc i (w :: w' :: ws'))
    with (if PrimFloat.ltb u (acc + w)%float then i else pick u (acc + w)%float (S i) (w' :: ws')).
  destruct (PrimFloat.ltb u (acc + w)%float); [simpl; lia|].
  specialize (IH (acc + w)%float (S i)). cbn [length] in *. lia.
Qed.

Lemma argmax_draw_range ws st : (0 < length ws → (argmax_draw ws st).1 < length ws)%nat.
Proof.
  intros Hlen. unfold argmax_draw. destruct (next st) as [x st']. simpl.
  apply (pick_range _ 0%float 0 ws Hlen).
Qed.

Lemma uint32_range x : 0 ≤ uint32 x < 4294967296.
Proof.
  unfold uint32. change 0xFFFFFFFF with (Z.ones 32).
  rewrite Z.land_ones by lia. change (2 ^ 32) with 4294967296.
  apply Z.mod_pos_bound. lia.
Qed.

Lemma next_range st : 0 ≤ (next st).1 < 4294967296.
Proof. unfold next. simpl. apply uint32_range. Qed.

End MT19937.

Definition mt19937 : NumpyRandom := {|
  RandomState := MT19937.state;
  MAX_SEED := 4294967296;
  new_RandomState := MT19937.seed;
  randint_uint32 := MT19937.next;
  multinomial_argmax := MT19937.argmax_draw;
  randint_range := MT19937.next_range;
  multinomial_range := MT19937.argmax_draw_range
|}.

(** ** The statements of the specification, in its own words *)

Section SpecWords.
Context `{G : NumpyRandom}.

(** "Output of step i is input of step i+1": [chain ts x h ts' h' z] holds
    when every member of [ts], in order, is applied to the output of the one
    before it, starting from [x] in heap [h] and ending with [z] in [h']. *)
Inductive chain : list transform → loc → heap → list transform → heap → loc → Prop :=
| chain_nil x h : chain [] x h [] h x
| chain_cons t ts x h t' h1 y ts' h2 z :
    apply_transform t x h = (t', h1, Ok y) →
    chain ts y h1 ts' h2 z →
    chain (t :: ts) x h (t' :: ts') h2 z.

(** "Calls inverse on the accumulated data": the members of [ts] are inverted
    one after the other, from left to right, each on the result of the one
    before. *)
Fixpoint invoke_each (keys : option (list string)) (ts : list transform) (d : loc) (h : heap)
    : heap * result loc :=
  match ts with
  | [] => (h, Ok d)
  | t :: ts' =>
      let '(h1, r) := inverse t (Passed keys) d h in
      match r with
      | Ok d1 => invoke_each keys ts' d1 h1
      | Raise e => (h1, Raise e)
      end
  end.

(** The number of Randomizable members before position [i]. *)
Definition rank (ts : list transform) (i : nat) : nat :=
  length (filter (λ t, is_Randomizable t = true) (take i ts)).

(** The same pipeline up to the states of the generators: every generator is
    replaced by a fixed one. *)
Fixpoint strip (t : transform) : transform :=
  match t with
  | Leaf l => Leaf (leaf_set_R l (match leaf_R l with
                                  | Some _ => Some (new_RandomState 0)
                                  | None => None
                                  end))
  | ComposeT _ ts => ComposeT (new_RandomState 0) (map strip ts)
  | OneOfT _ ts ws => OneOfT (new_RandomState 0) (map strip ts) ws
  end.

Definition same_members (ts ts' : list transform) : Prop := map strip ts = map strip ts'.

(** What an inversion may write.  [footprint f]: started on an object at or
    above [n], in a heap of at least [n] objects, the operation [f] leaves
    the first [n] objects as they were, removes nothing, and returns an
    object at or above [n]. *)
Definition footprint (f : loc → heap → heap * result loc) : Prop :=
  ∀ n d h, n ≤ d → n ≤ length h →
    take n (f d h).1 = take n h ∧ length h ≤ length (f d h).1 ∧
    (∀ d', (f d h).2 = Ok d' → n ≤ d').

(** Whether a [randomize] call ended with a [TypeError]. *)
Definition is_TypeError (r : option exn) : bool :=
  match r with Some (TypeError _) => true | _ => false end.

(** The invertible transform of the tests, [Inv], acts on its configured
    keys [keys]; none of them is itself a trace field, and the record holds
    a number under each. *)
Definition keys_of_record (keys : list string) (d : gmap string value) : Prop :=
  NoDup keys ∧ (∀ k', trace_key k' ∉ keys) ∧ (∀ k, k ∈ keys → ∃ x, d !! k = Some (VFloat x)).

(** A key is touched when its trace field holds a trace stack. *)
Definition touched (d : gmap string value) (key : string) : Prop :=
  ∃ l, d !! trace_key key = Some (VTrace l).

Global Instance touched_dec d key : Decision (touched d key).
Proof.
  unfold touched. destruct (d !! trace_key key) as [[x|l]|].
  - right. by intros [? ?].
  - left. by exists l.
  - right. by intros [? ?].
Defined.

(** The input of the scenario of the tests and what its inversion gives
    back: the values of the keys, and the emptied trace stacks. *)
Definition data_xy : gmap string value :=
  <["x" := VFloat 10]> (<["y" := VFloat 20]> ∅).

Definition data_xy_inverted : gmap string value :=
  <["x_transforms" := VTrace []]> (<["y_transforms" := VTrace []]> data_xy).

End SpecWords.

(** ** Pipelines of the invertible transform of the tests *)

Section InvPipelines.
Context `{G : NumpyRandom}.

(** A pipeline of objects of the class [Inv] of the tests, all acting on
    [keys]: each is given by its class identifier, its identity and its two
    functions. *)
Definition Inv_members (keys : list string)
    (specs : list (string * nat * (float → float) * (float → float))) : list transform :=
  map (λ '(cls, self, fwd_fn, inv_fn), Leaf (Inv cls self fwd_fn inv_fn keys)) specs.

(** The entries that these objects push, one each, in the order of the
    pipeline. *)
Definition Inv_entries
    (specs : list (string * nat * (float → float) * (float → float))) : list trace_entry :=
  map (λ '(cls, self, _, _), TraceEntry cls self ∅) specs.

End InvPipelines.

(** * The MedNIST data list

    [monai/application/datasets.py]: [MedNISTDataset] lists the images of
    the class folders and deals them into training, validation and test
    items with one draw of its private generator per image. *)

(** [RandomState.random()]: the next float of the stream. *)
Class NumpyRandomFloat (G : NumpyRandom) := {
  random_sample : RandomState → float * RandomState
}.

(** What [_generate_data_list] can raise: the [ValueError] of its own, or
    an exception of an indexing. *)
Inductive error :=
| ValueError (msg : string)
| Other (e : exn).

Inductive outcome (A : Type) :=
| Return (a : A)
| Throw (e : error).
Arguments Return {A} a.
Arguments Throw {A} e.

(** [{"image": ..., "label": ...}] *)
Record item := Item { image : string; label : nat }.

Section MedNISTDataset.
Context `{G : NumpyRandom} {F : NumpyRandomFloat G}.

(** [randomize]: [self.rann = self.R.random()]; the new value of [rann] and
    the generator after the draw. *)
Definition MedNISTDataset_randomize (R : RandomState) : float * RandomState :=
  random_sample R.

(** The first loop, from class [i] on:
    [image_files_list.extend(image_files[i]);
     image_class.extend([i] * num_each[i])]. *)
Fixpoint extend_classes (i : nat) (image_files : list (list string))
    (image_files_list : list string) (image_class : list nat) : list string * list nat :=
  match image_files with
  | [] => (image_files_list, image_class)
  | files :: rest =>
      extend_classes (S i) rest
        (image_files_list ++ files) (image_class ++ replicate (length files) i)
  end.

(** [0.1], the binary64 number nearest to one tenth. *)
Definition val_frac : float := 0x1.999999999999ap-4.
Definition test_frac : float := 0x1.999999999999ap-4.

Definition section_name_error : string :=
  "section name can only be: training, validation or test.".

(** The tests of the loop body for the draw [rann]: [Some true] is
    [continue], [Some false] goes on to the [append], [None] is the [else]
    branch. *)
Definition skip (section : string) (rann : float) : option bool :=
  if decide (section = "training") then
    Some (rann <? val_frac + test_frac)%float
  else if decide (section = "validation") then
    Some (val_frac <=? rann)%float
  else if decide (section = "test") then
    Some ((rann <? val_frac)%float || (val_frac + test_frac <=? rann)%float)
  else None.

(** The second loop, [for i in range(num_total)], on the indices that are
    left, with the generator and the list [data] built so far. *)
Fixpoint split_loop (section : string) (image_files_list : list string) (image_class : list nat)
    (indices : list nat) (R : RandomState) (data : list item)
    : RandomState * outcome (list item) :=
  match indices with
  | [] => (R, Return data)
  | i :: indices' =>
      let '(rann, R1) := MedNISTDataset_randomize R in
      match skip section rann with
      | None => (R1, Throw (ValueError section_name_error))
      | Some true => split_loop section image_files_list image_class indices' R1 data
      | Some false =>
          match image_files_list !! i, image_class !! i with
          | Some f, Some c =>
              split_loop section image_files_list image_class indices' R1 (data ++ [Item f c])
          | _, _ => (R1, Throw (Other (IndexError "list index out of range")))
          end
      end
  end.

(** [_generate_data_list], from the listing [image_files] of the class
    folders (one list of paths per class, the classes in sorted order) and
    the generator [self.R]. *)
Definition _generate_data_list (image_files : list (list string)) (section : string)
    (R : RandomState) : RandomState * outcome (list item) :=
  let '(image_files_list, image_class) := extend_classes 0 image_files [] [] in
  let num_total := length image_class in
  split_loop section image_files_list image_class (seq 0 num_total) R [].

(** [self.set_random_state(seed=seed)] followed by
    [self._generate_data_list()], as in [__init__]. *)
Definition MedNISTDataset_data (image_files : list (list string)) (section : string)
    (seed : Z) (entropy : RandomState) : RandomState * outcome (list item) :=
  _generate_data_list image_files section
    (Randomizable_set_random_state (Some seed) None entropy).

(** The first [n] floats of a stream, and the generator after them. *)
Fixpoint samples (n : nat) (R : RandomState) : list float * RandomState :=
  match n with
  | O => ([], R)
  | S n' =>
      let '(x, R1) := random_sample R in
      let '(xs, R2) := samples n' R1 in
      (x :: xs, R2)
  end.

(** The labels of a listing in words: each class, counted from [i], as
    many times as it has images. *)
Fixpoint class_labels (i : nat) (image_files : list (list string)) : list nat :=
  match image_files with
  | [] => []
  | files :: rest => replicate (length files) i ++ class_labels (S i) rest
  end.

(** Every image with its label, in the order of the listing. *)
Definition all_items (image_files : list (list string)) : list item :=
  let '(image_files_list, image_class) := extend_classes 0 image_files [] [] in
  zip_with Item image_files_list image_class.

(** The ranges of the sections, in words: training takes the draws from
    [val_frac + test_frac] on, validation those below [val_frac], test those
    in between. *)
Definition in_range (section : string) (x : float) : bool :=
  if decide (section = "training") then (val_frac + test_frac <=? x)%float
  else if decide (section = "validation") then (x <? val_frac)%float
  else if decide (section = "test") then (val_frac <=? x)%float && (x <? val_frac + test_frac)%float
  else false.

(** The items among [items] whose draw, at the same position of [xs],
    satisfies [keep]. *)
Fixpoint select (keep : float → bool) (items : list item) (xs : list float) : list item :=
  match items, xs with
  | it :: items', x :: xs' =>
      if keep x then it :: select keep items' xs' else select keep items' xs'
  | _, _ => []
  end.

End MedNISTDataset.

(** [RandomState.random()] of the legacy generator: 53 random bits from two
    words of the stream, [(a >> 5, b >> 6)], scaled to [[0, 1)]. *)
Definition mt19937_random_sample (st : MT19937.state) : float * MT19937.state :=
  let '(a, st1) := MT19937.next st in
  let '(b, st2) := MT19937.next st1 in
  ((PrimFloat.of_uint63 (Uint63.of_Z (Z.shiftr a 5 * 67108864 + Z.shiftr b 6))
    / 9007199254740992)%float, st2).

Definition mt19937_float : NumpyRandomFloat mt19937 :=
  Build_NumpyRandomFloat mt19937 mt19937_random_sample.

(** A Randomizable transform whose [randomize] fails with an exception that
    is not a [TypeError]. *)
Definition RandFails `{G : NumpyRandom} (R : RandomState) : transform :=
  Leaf {| leaf_name := "RandFails"; leaf_invertible := false; leaf_R := Some R;
          leaf_call := λ R x, (R, return_x x);
          leaf_inverse := λ _ x, (x, Raise (AttributeError "inverse"));
          leaf_randomize := λ _ R, (R, Some (RuntimeError "randomize failed")) |}.

(** Three class folders of three images each; with seed [1] the nine draws
    fall in all three ranges. *)
Definition three_classes : list (list string) :=
  [["AbdomenCT/0.jpeg"; "AbdomenCT/1.jpeg"; "AbdomenCT/2.jpeg"];
   ["BreastMRI/0.jpeg"; "BreastMRI/1.jpeg"; "BreastMRI/2.jpeg"];
   ["CXR/0.jpeg"; "CXR/1.jpeg"; "CXR/2.jpeg"]].

(** * Properties *)

Section Properties.
Context `{G : NumpyRandom}.

(** ** Induction over a pipeline and its members *)

Section transform_induction.
Variable P : transform → Prop.
Hypothesis HLeaf : ∀ l, P (Leaf l).
Hypothesis HCompose : ∀ R ts, Forall P ts → P (ComposeT R ts).
Hypothesis HOneOf : ∀ R ts ws, Forall P ts → P (OneOfT R ts ws).

Fixpoint transform_ind (t : transform) : P t :=
  match t with
  | Leaf l => HLeaf l
  | ComposeT R ts =>
      HCompose R ts ((fix go (ts : list transform) : Forall P ts :=
                        match ts with
                        | [] => List.Forall_nil P
                        | t :: ts' => List.Forall_cons P t ts' (transform_ind t) (go ts')
                        end) ts)
  | OneOfT R ts ws =>
      HOneOf R ts ws ((fix go (ts : list transform) : Forall P ts :=
                         match ts with
                         | [] => List.Forall_nil P
                         | t :: ts' => List.Forall_cons P t ts' (transform_ind t) (go ts')
                         end) ts)
  end.

End transform_induction.

(** ** Length *)

Lemma Compose_len_cons t ts :
  Compose_len (t :: ts) = (if is_Compose t then len t else 1) + Compose_len ts.
Proof. reflexivity. Qed.

Lemma leaves_ComposeT R ts : leaves (ComposeT R ts) = concat (leaves <$> ts).
Proof. simpl. induction ts as [|t ts IH]; [done|]. simpl. by rewrite IH. Qed.

Lemma leaves_OneOfT R ts ws : leaves (OneOfT R ts ws) = concat (leaves <$> ts).
Proof. simpl. induction ts as [|t ts IH]; [done|]. simpl. by rewrite IH. Qed.

Lemma sum_len_leaves ts :
  Forall (λ t, len t = length (leaves t)) ts →
  sum_len_with len ts = length (concat (leaves <$> ts)).
Proof.
  induction 1 as [|t ts Ht _ IH]; [done|].
  cbn [sum_len_with fmap list_fmap concat]. rewrite length_app, <- IH, <- Ht.
  destruct t; reflexivity.
Qed.

Lemma len_leaves t : len t = length (leaves t).
Proof.
  induction t as [l|R ts IH|R ts ws IH] using transform_ind.
  - reflexivity.
  - rewrite leaves_ComposeT. by apply sum_len_leaves.
  - rewrite leaves_OneOfT. by apply sum_len_leaves.
Qed.

(** C5, as the code has it: [len(p)] is the number of leaf transforms of the
    pipeline with every nested [Compose] unrolled, and a nested [OneOf], which
    is a [Compose] too, is unrolled in the same way: it counts for the
    length of its own candidate tuple, a plain member counts for one. *)
Theorem Compose_len_flattened_count :
  (∀ ts, Compose_len ts = length (concat (leaves <$> ts))) ∧
  (∀ l ts, Compose_len (Leaf l :: ts) = 1 + Compose_len ts) ∧
  (∀ R ms ts, Compose_len (ComposeT R ms :: ts) = Compose_len ms + Compose_len ts) ∧
  (∀ R ms ws ts, Compose_len (OneOfT R ms ws :: ts) = Compose_len ms + Compose_len ts).
Proof.
  split; [|by repeat split].
  intros ts. apply sum_len_leaves, Forall_forall. intros t _. apply len_leaves.
Qed.

(** ** Application *)

Lemma Compose_call_nil x h : Compose_call [] x h = ([], h, Ok x).
Proof. reflexivity. Qed.

Lemma Compose_call_cons t ts x h :
  Compose_call (t :: ts) x h =
    let '(t', h1, r) := apply_transform t x h in
    match r with
    | Ok y => let '(ts', h2, r') := Compose_call ts y h1 in (t' :: ts', h2, r')
    | Raise e => (t' :: ts, h1, Raise e)
    end.
Proof. reflexivity. Qed.

Lemma Compose_call_app ts1 ts2 x h :
  Compose_call (ts1 ++ ts2) x h =
    match Compose_call ts1 x h with
    | (ts1', h1, Ok y) =>
        let '(ts2', h2, r) := Compose_call ts2 y h1 in (ts1' ++ ts2', h2, r)
    | (ts1', h1, Raise e) => (ts1' ++ ts2, h1, Raise e)
    end.
Proof.
  revert x h. induction ts1 as [|t ts1 IH]; intros x h.
  - rewrite Compose_call_nil. simpl. by destruct (Compose_call ts2 x h) as [[??]?].
  - rewrite <- app_comm_cons, !Compose_call_cons.
    destruct (apply_transform t x h) as [[t' h1] [y|e]]; [|done].
    rewrite IH. destruct (Compose_call ts1 y h1) as [[ts1' h2] [z|e]]; [|done].
    by destruct (Compose_call ts2 z h2) as [[??]?].
Qed.

Lemma Compose_call_chain ts x h ts' h' z :
  Compose_call ts x h = (ts', h', Ok z) ↔ chain ts x h ts' h' z.
Proof.
  split.
  - revert x h ts' h' z. induction ts as [|t ts IH]; intros x h ts' h' z.
    + rewrite Compose_call_nil. intros [= <- <- <-]. constructor.
    + rewrite Compose_call_cons.
      destruct (apply_transform t x h) as [[t' h1] [y|e]] eqn:Ht; [|done].
      destruct (Compose_call ts y h1) as [[ts1 h2] r] eqn:Hts.
      intros [= <- <- ->]. econstructor; [exact Ht|]. by apply IH.
  - induction 1 as [|t ts x h t' h1 y ts' h2 z Ht _ IH]; [done|].
    by rewrite Compose_call_cons, Ht, IH.
Qed.

(** C8: [Compose.__call__] applies the members in sequence order, the output
    of one step being the input of the next, and returns the last output;
    the first exception ends the call (no retry), no member is skipped; and
    [Compose([A(), B(), C()])] maps [1.0] to [7.0]. *)
Theorem Compose_call_in_sequence :
  (∀ x h, Compose_call [] x h = ([], h, Ok x)) ∧
  (∀ t ts x h,
     Compose_call (t :: ts) x h =
       let '(t', h1, r) := apply_transform t x h in
       match r with
       | Ok y => let '(ts', h2, r') := Compose_call ts y h1 in (t' :: ts', h2, r')
       | Raise e => (t' :: ts, h1, Raise e)
       end) ∧
  (∀ ts1 ts2 x h,
     Compose_call (ts1 ++ ts2) x h =
       match Compose_call ts1 x h with
       | (ts1', h1, Ok y) =>
           let '(ts2', h2, r) := Compose_call ts2 y h1 in (ts1' ++ ts2', h2, r)
       | (ts1', h1, Raise e) => (ts1' ++ ts2, h1, Raise e)
       end) ∧
  (∀ ts x h ts' h' z,
     Compose_call ts x h = (ts', h', Ok z) ↔ chain ts x h ts' h' z) ∧
  (∃ h' z, Compose_call [A; B; C] 0 [PFloat 1] = ([A; B; C], h', Ok z)
           ∧ deref h' z = PFloat 7 ∧ deref h' 0 = PFloat 1).
Proof.
  split; [exact Compose_call_nil|].
  split; [exact Compose_call_cons|].
  split; [exact Compose_call_app|].
  split; [exact Compose_call_chain|].
  eexists _, _. split; [reflexivity|]. split; reflexivity.
Qed.

(** ** Inversion *)

Lemma inverse_loop_cons keys t ts d h :
  inverse_loop keys (t :: ts) d h =
    let '(h1, r) := inverse_loop keys ts d h in
    match r with
    | Raise e => (h1, Raise e)
    | Ok d1 => if is_Invertible t then inverse t (Passed keys) d1 h1 else (h1, Ok d1)
    end.
Proof. reflexivity. Qed.

Lemma invoke_each_app keys ts1 ts2 d h :
  invoke_each keys (ts1 ++ ts2) d h =
    match invoke_each keys ts1 d h with
    | (h1, Ok d1) => invoke_each keys ts2 d1 h1
    | (h1, Raise e) => (h1, Raise e)
    end.
Proof.
  revert d h. induction ts1 as [|t ts1 IH]; intros d h; [done|].
  simpl. destruct (inverse t (Passed keys) d h) as [h1 [d1|e]]; [apply IH|done].
Qed.

(** The loop of [Compose.inverse] is a left-to-right walk of the reversed
    tuple that invokes [inverse] on the invertible members only. *)
Lemma inverse_loop_rev keys ts d h :
  inverse_loop keys ts d h = invoke_each keys (List.filter is_Invertible (rev ts)) d h.
Proof.
  revert d h. induction ts as [|t ts IH]; intros d h; [done|].
  rewrite inverse_loop_cons, IH. simpl rev. rewrite List.filter_app, invoke_each_app.
  destruct (invoke_each keys (List.filter is_Invertible (rev ts)) d h) as [h1 [d1|e]]; [|done].
  simpl. destruct (is_Invertible t); [|done].
  simpl. by destruct (inverse t (Passed keys) d1 h1) as [h2 [d2|e]].
Qed.

(** C4: on a keyed mapping [Compose.inverse] copies the input and then walks
    the members in reverse sequence order, calling [inverse] on exactly the
    members that are invertible, each on the data returned by the one before,
    and skipping the others. *)
Theorem Compose_inverse_reverse_order ts keys data h :
  Compose_inverse ts keys data h =
    match deref h data with
    | PMap m =>
        invoke_each keys (List.filter is_Invertible (rev ts)) (length h) (h ++ [PMap m])
    | _ => (h, Raise not_a_mapping)
    end.
Proof.
  unfold Compose_inverse, Compose_inverse_with.
  destruct (deref h data); try done. apply inverse_loop_rev.
Qed.

(** C6: an input that is no keyed mapping makes [Compose.inverse] raise the
    [RuntimeError] at once, whatever the members are and with the heap as it
    was, so no member has been invoked; on a keyed mapping the check passes
    and the walk over the members starts from the copy (and ends well when no
    member is invertible). *)
Theorem Compose_inverse_requires_mapping :
  (∀ ts keys data h,
     is_Mapping (deref h data) = false →
     Compose_inverse ts keys data h = (h, Raise not_a_mapping)) ∧
  (∀ ts keys data h m,
     deref h data = PMap m →
     Compose_inverse ts keys data h = inverse_loop keys ts (length h) (h ++ [PMap m])) ∧
  (∀ ts keys data h m,
     deref h data = PMap m →
     Forall (λ t, is_Invertible t = false) ts →
     Compose_inverse ts keys data h = (h ++ [PMap m], Ok (length h))).
Proof.
  split; [|split].
  - intros ts keys data h Hm. unfold Compose_inverse, Compose_inverse_with.
    by destruct (deref h data).
  - intros ts keys data h m Hm. unfold Compose_inverse, Compose_inverse_with.
    by rewrite Hm.
  - intros ts keys data h m Hm Hts. unfold Compose_inverse, Compose_inverse_with.
    rewrite Hm. simpl. fold (inverse_loop keys ts (length h) (h ++ [PMap m])).
    induction Hts as [|t ts Ht _ IH]; [done|].
    by rewrite inverse_loop_cons, IH, Ht.
Qed.


(** *** What an inversion may write *)

Lemma commit_footprint out : footprint (λ d h, commit d h out).
Proof.
  intros n d h Hd Hh. destruct out as [x' [[v|]|e]]; simpl.
  - rewrite take_app_le by (rewrite length_insert; lia).
    rewrite take_insert_ge by done. rewrite length_app, length_insert. simpl.
    repeat split; [lia|]. intros d' [= <-]. lia.
  - rewrite take_insert_ge by done. rewrite length_insert.
    repeat split; [lia|]. by intros d' [= <-].
  - rewrite take_insert_ge by done. rewrite length_insert. repeat split; [lia|done].
Qed.

Lemma run_effect_footprint f : footprint (run_effect f).
Proof. intros n d h Hd Hh. unfold run_effect. by apply commit_footprint. Qed.

Lemma inverse_loop_footprint keys ts :
  Forall (λ t, ∀ k, footprint (inverse t k)) ts →
  footprint (inverse_loop keys ts).
Proof.
  induction 1 as [|t ts Ht _ IH]; intros n d h Hd Hh.
  - simpl. repeat split; [lia|]. by intros d' [= <-].
  - rewrite inverse_loop_cons. specialize (IH n d h Hd Hh).
    destruct (inverse_loop keys ts d h) as [h1 [d1|e]]; simpl in IH;
      destruct IH as (Htk & Hlen & Hret); [|done].
    destruct (is_Invertible t); [|done].
    specialize (Hret d1 eq_refl).
    destruct (Ht (Passed keys) n d1 h1 Hret ltac:(lia)) as (Htk' & Hlen' & Hret').
    split; [congruence|]. split; [lia|done].
Qed.

Lemma Compose_inverse_footprint ts keys :
  Forall (λ t, ∀ k, footprint (inverse t k)) ts →
  footprint (Compose_inverse ts keys).
Proof.
  intros Hts n d h Hd Hh. unfold Compose_inverse, Compose_inverse_with.
  destruct (deref h d) as [| |m]; try (simpl; repeat split; [lia|done]).
  simpl. fold (inverse_loop keys ts (length h) (h ++ [PMap m])).
  destruct (inverse_loop_footprint keys ts Hts n (length h) (h ++ [PMap m]))
    as (Htk & Hlen & Hret); [lia|rewrite length_app; lia|].
  rewrite length_app in Hlen. rewrite take_app_le in Htk by done.
  split; [done|]. split; [lia|done].
Qed.

Lemma inverse_at_footprint ts index :
  Forall (λ t, ∀ k, footprint (inverse t k)) ts →
  footprint (λ d h, inverse_at d h ts index).
Proof.
  intros Hts. revert index. induction Hts as [|t ts Ht _ IH]; intros index n d h Hd Hh.
  - destruct index; simpl; (repeat split; [lia|done]).
  - destruct index as [|i].
    + simpl. destruct (is_Invertible t); [by apply Ht|].
      simpl; repeat split; [lia|done].
    + by apply IH.
Qed.

Lemma OneOf_inverse_footprint ts :
  Forall (λ t, ∀ k, footprint (inverse t k)) ts →
  footprint (OneOf_inverse ts).
Proof.
  intros Hts n d h Hd Hh. unfold OneOf_inverse, OneOf_inverse_with.
  destruct (deref h d) as [| |m]; try (simpl; repeat split; [lia|done]).
  destruct (OneOf_pop m) as [[[index|] m']|e]; try (simpl; repeat split; [lia|done]).
  - fold (inverse_at d (<[d:=PMap m']> h) ts index).
    destruct (inverse_at_footprint ts index Hts n d (<[d:=PMap m']> h))
      as (Htk & Hlen & Hret); [done|by rewrite length_insert|].
    rewrite take_insert_ge in Htk by done. rewrite length_insert in Hlen. done.
  - destruct (existsb _ _); simpl; (repeat split; [lia|]); [|done].
    by intros d' [= <-].
Qed.

Lemma inverse_footprint t k : footprint (inverse t k).
Proof.
  revert k. induction t as [l|R ts IH|R ts ws IH] using transform_ind; intros k.
  - apply run_effect_footprint.
  - by apply Compose_inverse_footprint.
  - by apply OneOf_inverse_footprint.
Qed.

(** C7: [Compose.inverse] leaves every object that existed before the call
    as it was, the input mapping among them: the heap after the call starts
    with the heap before it, whatever the members write while they invert and
    whether the call returns or raises. *)
Theorem Compose_inverse_input_unchanged ts keys data h :
  take (length h) (Compose_inverse ts keys data h).1 = h ∧
  deref (Compose_inverse ts keys data h).1 data = deref h data.
Proof.
  assert (Hfp : footprint (inverse_loop keys ts)).
  { apply inverse_loop_footprint, Forall_forall. intros t _ k. apply inverse_footprint. }
  unfold Compose_inverse, Compose_inverse_with.
  destruct (h !! data) as [o|] eqn:Hdata; unfold deref at 1 3; rewrite Hdata; simpl.
  - destruct o as [| |m]; try (by rewrite firstn_all).
    simpl. fold (inverse_loop keys ts (length h) (h ++ [PMap m])).
    destruct (Hfp (length h) (length h) (h ++ [PMap m])) as (Htk & _ & _);
      [lia|rewrite length_app; lia|].
    rewrite take_app_length in Htk. split; [done|].
    unfold deref. rewrite <- (lookup_take_lt _ (length h)) by by eapply lookup_lt_Some.
    by rewrite Htk.
  - by rewrite firstn_all.
Qed.

(** ** Randomization *)

Lemma Compose_randomize_cons t ts data :
  Compose_randomize (t :: ts) data =
    if is_Randomizable t then
      let '(t', w, r) := randomize t data in
      match r with
      | None =>
          let '(ts', w', r') := Compose_randomize ts data in (t' :: ts', w ++ w', r')
      | Some (TypeError type_error) =>
          let '(ts', w', r') := Compose_randomize ts data in
          (t' :: ts', w ++ not_randomized (type_name t) type_error :: w', r')
      | Some e => (t' :: ts, w, Some e)
      end
    else
      let '(ts', w', r') := Compose_randomize ts data in (t :: ts', w', r').
Proof. reflexivity. Qed.

Lemma Compose_randomize_app ts1 ts2 data :
  Compose_randomize (ts1 ++ ts2) data =
    match Compose_randomize ts1 data with
    | (ts1', w1, None) =>
        let '(ts2', w2, r) := Compose_randomize ts2 data in (ts1' ++ ts2', w1 ++ w2, r)
    | (ts1', w1, Some e) => (ts1' ++ ts2, w1, Some e)
    end.
Proof.
  induction ts1 as [|t ts1 IH].
  - simpl. by destruct (Compose_randomize ts2 data) as [[??]?].
  - rewrite <- app_comm_cons, !Compose_randomize_cons, IH.
    destruct (is_Randomizable t).
    + destruct (randomize t data) as [[t' w] [e|]].
      * destruct e; try done;
          destruct (Compose_randomize ts1 data) as [[ts1' w1] [e1|]]; try done;
          destruct (Compose_randomize ts2 data) as [[ts2' w2] r2];
          by rewrite <- !app_assoc.
      * destruct (Compose_randomize ts1 data) as [[ts1' w1] [e1|]]; try done.
        destruct (Compose_randomize ts2 data) as [[ts2' w2] r2].
        by rewrite <- !app_assoc.
    + destruct (Compose_randomize ts1 data) as [[ts1' w1] [e1|]]; try done.
      by destruct (Compose_randomize ts2 data) as [[ts2' w2] r2].
Qed.


Lemma Compose_randomize_no_TypeError ts data :
  is_TypeError (Compose_randomize ts data).2 = false.
Proof.
  induction ts as [|t ts IH]; [done|].
  rewrite Compose_randomize_cons.
  destruct (Compose_randomize ts data) as [[ts' w'] r'].
  destruct (is_Randomizable t); [|done].
  destruct (randomize t data) as [[t' w] [e|]]; [|done].
  by destruct e.
Qed.

Lemma Compose_randomize_completes ts data :
  Forall (λ t, is_Randomizable t = true →
               (randomize t data).2 = None ∨ is_TypeError (randomize t data).2 = true) ts →
  (Compose_randomize ts data).2 = None.
Proof.
  induction 1 as [|t ts Ht _ IH]; [done|].
  rewrite Compose_randomize_cons.
  destruct (Compose_randomize ts data) as [[ts' w'] r']. simpl in IH. subst r'.
  destruct (is_Randomizable t); [|done].
  destruct (randomize t data) as [[t' w] [e|]]; [|done].
  destruct (Ht eq_refl) as [?|He]; [done|]. by destruct e.
Qed.

(** C9: a Randomizable member whose [randomize] rejects the data argument
    with a [TypeError] does not end [Compose.randomize]: the members before
    it are randomized, one warning naming the member is issued, and the
    members after it are randomized in sequence order; no [TypeError] of a
    member ever leaves the call, and when the members only succeed or
    reject, the call returns normally. *)
Theorem Compose_randomize_tolerates_TypeError :
  (∀ ts1 t ts2 data t' w type_error,
     is_Randomizable t = true →
     randomize t data = (t', w, Some (TypeError type_error)) →
     Compose_randomize (ts1 ++ t :: ts2) data =
       match Compose_randomize ts1 data with
       | (ts1', w1, None) =>
           let '(ts2', w2, r) := Compose_randomize ts2 data in
           (ts1' ++ t' :: ts2',
            w1 ++ w ++ not_randomized (type_name t) type_error :: w2, r)
       | (ts1', w1, Some e) => (ts1' ++ t :: ts2, w1, Some e)
       end) ∧
  (∀ ts data, is_TypeError (Compose_randomize ts data).2 = false) ∧
  (∀ ts data,
     Forall (λ t, is_Randomizable t = true →
                  (randomize t data).2 = None ∨ is_TypeError (randomize t data).2 = true) ts →
     (Compose_randomize ts data).2 = None).
Proof.
  split; [|split].
  - intros ts1 t ts2 data t' w type_error Hr Ht.
    rewrite Compose_randomize_app, Compose_randomize_cons, Hr, Ht.
    destruct (Compose_randomize ts1 data) as [[ts1' w1] [e1|]]; [done|].
    by destruct (Compose_randomize ts2 data) as [[ts2' w2] r2].
  - exact Compose_randomize_no_TypeError.
  - exact Compose_randomize_completes.
Qed.

(** ** Seeding *)

Lemma reseed_members_cons R t ts :
  reseed_members R (t :: ts) =
    if is_Randomizable t then
      let '(s, R1) := randint_uint32 R in
      let '(R2, ts') := reseed_members R1 ts in (R2, reseed t s :: ts')
    else
      let '(R2, ts') := reseed_members R ts in (R2, t :: ts').
Proof.
  unfold reseed_members. simpl. destruct (is_Randomizable t); [|done].
  by destruct (randint_uint32 R).
Qed.

Lemma draws_length n R : length (draws n R).1 = n.
Proof.
  revert R. induction n as [|n IH]; intros R; [done|].
  simpl. destruct (randint_uint32 R) as [s R1]. specialize (IH R1).
  destruct (draws n R1) as [l R2]. simpl in *. by rewrite IH.
Qed.

Lemma draws_range n R : Forall (λ s, (0 ≤ s < MAX_SEED)%Z) (draws n R).1.
Proof.
  revert R. induction n as [|n IH]; intros R; [by constructor|].
  simpl. pose proof (randint_range R) as Hr.
  destruct (randint_uint32 R) as [s R1]. specialize (IH R1).
  destruct (draws n R1) as [l R2]. simpl in *. by constructor.
Qed.

Lemma child_seeds_length R ts :
  length (child_seeds R ts) = length (filter (λ t, is_Randomizable t = true) ts).
Proof. apply draws_length. Qed.

Lemma child_seeds_cons R t ts :
  child_seeds R (t :: ts) =
    if is_Randomizable t
    then (randint_uint32 R).1 :: child_seeds (randint_uint32 R).2 ts
    else child_seeds R ts.
Proof.
  unfold child_seeds. rewrite filter_cons.
  destruct (is_Randomizable t); case_decide; try done.
  simpl. destruct (randint_uint32 R) as [s R1]. simpl.
  by destruct (draws _ R1).
Qed.

(** The loop of [set_random_state] hands the successive draws of the
    sequencer's generator to the Randomizable members, in sequence order. *)
Lemma reseed_members_draws R ts :
  reseed_members R ts =
    ((draws (length (child_seeds R ts)) R).2, assign_seeds ts (child_seeds R ts)).
Proof.
  revert R. induction ts as [|t ts IH]; intros R; [done|].
  rewrite reseed_members_cons, child_seeds_cons. simpl assign_seeds.
  destruct (is_Randomizable t).
  - destruct (randint_uint32 R) as [s R1] eqn:Hs. rewrite IH. simpl.
    rewrite Hs. by destruct (draws _ R1).
  - by rewrite IH.
Qed.

Lemma rank_0 ts : rank ts 0 = 0.
Proof. unfold rank. by rewrite take_0. Qed.

Lemma rank_S t ts i :
  rank (t :: ts) (S i) = if is_Randomizable t then S (rank ts i) else rank ts i.
Proof.
  unfold rank. simpl take. rewrite filter_cons.
  by destruct (is_Randomizable t); case_decide.
Qed.

Lemma rank_lt ts i t :
  ts !! i = Some t → is_Randomizable t = true →
  rank ts i < length (filter (λ t, is_Randomizable t = true) ts).
Proof.
  intros Hi Ht. unfold rank. rewrite <- (take_drop_middle ts i t Hi) at 2.
  rewrite filter_app, filter_cons, decide_True by done.
  rewrite length_app. simpl. lia.
Qed.

Lemma assign_seeds_lookup ts seeds i :
  assign_seeds ts seeds !! i =
    (λ t, if is_Randomizable t
          then match seeds !! rank ts i with Some s => reseed t s | None => t end
          else t) <$> ts !! i.
Proof.
  revert seeds i. induction ts as [|t ts IH]; intros seeds i; [done|].
  simpl assign_seeds. destruct i as [|i].
  - rewrite rank_0. cbn [lookup list_lookup fmap option_fmap option_map].
    destruct (is_Randomizable t); [|done]. by destruct seeds.
  - rewrite rank_S. change ((t :: ts) !! S i) with (ts !! i).
    destruct (is_Randomizable t); [|apply IH].
    destruct seeds as [|s seeds]; simpl; rewrite IH; [|done].
    by rewrite !lookup_nil.
Qed.

Lemma assign_seeds_not_Randomizable ts seeds i t :
  ts !! i = Some t → is_Randomizable t = false → assign_seeds ts seeds !! i = Some t.
Proof. intros Hi Ht. by rewrite assign_seeds_lookup, Hi; simpl; rewrite Ht. Qed.

Lemma assign_seeds_Randomizable R ts i t :
  ts !! i = Some t → is_Randomizable t = true →
  ∃ seed, child_seeds R ts !! rank ts i = Some seed ∧ (0 ≤ seed < MAX_SEED)%Z ∧
          assign_seeds ts (child_seeds R ts) !! i = Some (reseed t seed).
Proof.
  intros Hi Ht.
  destruct (lookup_lt_is_Some_2 (child_seeds R ts) (rank ts i)) as [seed Hseed].
  { rewrite child_seeds_length. by eapply rank_lt. }
  exists seed. split; [done|]. split.
  - pose proof (draws_range (length (filter (λ t, is_Randomizable t = true) ts)) R) as Hr.
    rewrite Forall_forall in Hr. apply Hr. by eapply list_elem_of_lookup_2.
  - by rewrite assign_seeds_lookup, Hi; simpl; rewrite Ht, Hseed.
Qed.

(** Reseeding forgets the generators a pipeline had before. *)
Lemma is_Randomizable_strip t : is_Randomizable (strip t) = is_Randomizable t.
Proof.
  destruct t as [[name inv [R|] c i r]| |]; done.
Qed.

Lemma strip_not_Randomizable t : is_Randomizable t = false → strip t = t.
Proof.
  destruct t as [[name inv [R|] c i r]| |]; done.
Qed.

Lemma reseed_members_strip R ts :
  Forall (λ t, ∀ s, reseed (strip t) s = reseed t s) ts →
  reseed_members R (map strip ts) = reseed_members R ts.
Proof.
  intros Hts. revert R. induction Hts as [|t ts Ht _ IH]; intros R; [done|].
  simpl map. rewrite !reseed_members_cons, is_Randomizable_strip.
  destruct (is_Randomizable t) eqn:Hr.
  - destruct (randint_uint32 R) as [s R1]. by rewrite IH, Ht.
  - by rewrite IH, strip_not_Randomizable.
Qed.

Lemma reseed_strip t s : reseed (strip t) s = reseed t s.
Proof.
  revert s. induction t as [l|R ts IH|R ts ws IH] using transform_ind; intros s.
  - reflexivity.
  - simpl. fold (reseed_members (new_RandomState s) (map strip ts)).
    fold (reseed_members (new_RandomState s) ts). by rewrite reseed_members_strip.
  - simpl. fold (reseed_members (new_RandomState s) (map strip ts)).
    fold (reseed_members (new_RandomState s) ts). by rewrite reseed_members_strip.
Qed.

Lemma reseed_members_same R ts ts' :
  same_members ts ts' → reseed_members R ts = reseed_members R ts'.
Proof.
  intros Hsame.
  rewrite <- (reseed_members_strip R ts), <- (reseed_members_strip R ts').
  - by rewrite Hsame.
  - apply Forall_forall. intros t _ s. apply reseed_strip.
  - apply Forall_forall. intros t _ s. apply reseed_strip.
Qed.

(** C3, as the code has it: [Compose.set_random_state(seed=s)] seeds the
    sequencer's own generator with [s] and hands each Randomizable member one
    bounded draw of that generator, in sequence order, one draw per such
    member; the outcome depends on [s] and on the members only, not on the
    generators they had before.  (Whether two siblings get different seeds
    is left to the draws.) *)
Theorem Compose_set_random_state_child_seeds :
  (∀ s state entropy ts,
     Compose_set_random_state ts (Some s) state entropy =
       ((draws (length (filter (λ t, is_Randomizable t = true) ts)) (new_RandomState s)).2,
        assign_seeds ts (child_seeds (new_RandomState s) ts))) ∧
  (∀ s ts,
     child_seeds (new_RandomState s) ts =
       (draws (length (filter (λ t, is_Randomizable t = true) ts)) (new_RandomState s)).1 ∧
     Forall (λ seed, (0 ≤ seed < MAX_SEED)%Z) (child_seeds (new_RandomState s) ts)) ∧
  (∀ s ts i t,
     ts !! i = Some t →
     assign_seeds ts (child_seeds (new_RandomState s) ts) !! i =
       Some (if is_Randomizable t
             then match child_seeds (new_RandomState s) ts !! rank ts i with
                  | Some seed => reseed t seed
                  | None => t
                  end
             else t) ∧
     (is_Randomizable t = true →
      is_Some (child_seeds (new_RandomState s) ts !! rank ts i))) ∧
  (∀ s ts ts' state state' entropy entropy',
     same_members ts ts' →
     Compose_set_random_state ts (Some s) state entropy =
       Compose_set_random_state ts' (Some s) state' entropy').
Proof.
  split; [|split; [|split]].
  - intros s state entropy ts. unfold Compose_set_random_state. simpl.
    by rewrite reseed_members_draws, child_seeds_length.
  - intros s ts. split; [done|]. apply draws_range.
  - intros s ts i t Hi. split.
    + by rewrite assign_seeds_lookup, Hi.
    + intros Ht. apply lookup_lt_is_Some_2. rewrite child_seeds_length. by eapply rank_lt.
  - intros s ts ts' state state' entropy entropy' Hsame.
    unfold Compose_set_random_state. simpl. by apply reseed_members_same.
Qed.

(** What reseeding makes of a nested sequencer. *)
Lemma reseed_ComposeT R ts seed :
  reseed (ComposeT R ts) seed =
    ComposeT (draws (length (child_seeds (new_RandomState seed) ts)) (new_RandomState seed)).2
             (assign_seeds ts (child_seeds (new_RandomState seed) ts)).
Proof.
  change (reseed (ComposeT R ts) seed)
    with (let '(R', ts') := reseed_members (new_RandomState seed) ts in ComposeT R' ts').
  by rewrite reseed_members_draws.
Qed.

Lemma reseed_OneOfT R ts ws seed :
  reseed (OneOfT R ts ws) seed =
    OneOfT (draws (length (child_seeds (new_RandomState seed) ts)) (new_RandomState seed)).2
           (assign_seeds ts (child_seeds (new_RandomState seed) ts)) ws.
Proof.
  change (reseed (OneOfT R ts ws) seed)
    with (let '(R', ts') := reseed_members (new_RandomState seed) ts in OneOfT R' ts' ws).
  by rewrite reseed_members_draws.
Qed.

(** C10: constructing a [Compose] seeds it with the value of [get_seed()]
    and so reseeds the members at once.  The generator of the new sequencer
    is the seeded one after one draw per Randomizable member.  A member
    that is not Randomizable is left as it was.  A Randomizable member has
    its generator replaced: a leaf holds, after the construction, the
    generator [RandomState(seed)] of its own draw [seed] of the sequencer's
    stream (the draw at its rank among the Randomizable members, a bounded
    integer), whatever generator it held before, and is otherwise as it
    was; a nested [Compose] or [OneOf] holds the generator seeded with its
    draw, after the draws for its own members, which are reseeded in the
    same way. *)
Theorem Compose_init_reseeds_members transforms get_seed entropy :
  let ts := ensure_tuple transforms in
  let R0 := Randomizable_set_random_state get_seed None entropy in
  let seeds := child_seeds R0 ts in
  Compose_init transforms get_seed entropy =
    ComposeT (draws (length seeds) R0).2 (assign_seeds ts seeds) ∧
  length seeds = length (filter (λ t, is_Randomizable t = true) ts) ∧
  Forall (λ seed, (0 ≤ seed < MAX_SEED)%Z) seeds ∧
  (∀ i t, ts !! i = Some t → is_Randomizable t = false →
          assign_seeds ts seeds !! i = Some t) ∧
  (∀ i t, ts !! i = Some t → is_Randomizable t = true →
          ∃ seed, seeds !! rank ts i = Some seed ∧
                  assign_seeds ts seeds !! i = Some (reseed t seed)) ∧
  (∀ l seed, reseed (Leaf l) seed = Leaf (leaf_set_R l (Some (new_RandomState seed)))) ∧
  (∀ i l, ts !! i = Some (Leaf l) → is_Randomizable (Leaf l) = true →
          ∃ seed l', seeds !! rank ts i = Some seed ∧
                     assign_seeds ts seeds !! i = Some (Leaf l') ∧
                     leaf_R l' = Some (new_RandomState seed) ∧
                     leaf_name l' = leaf_name l ∧
                     leaf_invertible l' = leaf_invertible l ∧
                     leaf_call l' = leaf_call l ∧
                     leaf_inverse l' = leaf_inverse l ∧
                     leaf_randomize l' = leaf_randomize l) ∧
  (∀ i R ms, ts !! i = Some (ComposeT R ms) →
          ∃ seed, seeds !! rank ts i = Some seed ∧
                  let child := new_RandomState seed in
                  assign_seeds ts seeds !! i =
                    Some (ComposeT (draws (length (child_seeds child ms)) child).2
                                   (assign_seeds ms (child_seeds child ms)))) ∧
  (∀ i R ms ws, ts !! i = Some (OneOfT R ms ws) →
          ∃ seed, seeds !! rank ts i = Some seed ∧
                  let child := new_RandomState seed in
                  assign_seeds ts seeds !! i =
                    Some (OneOfT (draws (length (child_seeds child ms)) child).2
                                 (assign_seeds ms (child_seeds child ms)) ws)).
Proof.
  intros ts R0 seeds. split; [|split; [|split; [|split; [|split; [|split; [|split; [|split]]]]]]].
  - unfold Compose_init, Compose_set_random_state. fold ts R0.
    by rewrite reseed_members_draws.
  - apply child_seeds_length.
  - apply draws_range.
  - intros i t Hi Ht. by apply assign_seeds_not_Randomizable.
  - intros i t Hi Ht.
    destruct (assign_seeds_Randomizable R0 ts i t Hi Ht) as (seed & ? & _ & ?). eauto.
  - done.
  - intros i l Hi Ht.
    destruct (assign_seeds_Randomizable R0 ts i (Leaf l) Hi Ht) as (seed & Hseed & _ & Hl').
    exists seed, (leaf_set_R l (Some (new_RandomState seed))).
    split; [done|]. split; [done|]. done.
  - intros i R ms Hi.
    destruct (assign_seeds_Randomizable R0 ts i (ComposeT R ms) Hi eq_refl)
      as (seed & Hseed & _ & Ht').
    exists seed. split; [done|]. cbv zeta. unfold seeds. by rewrite Ht', reseed_ComposeT.
  - intros i R ms ws Hi.
    destruct (assign_seeds_Randomizable R0 ts i (OneOfT R ms ws) Hi eq_refl)
      as (seed & Hseed & _ & Ht').
    exists seed. split; [done|]. cbv zeta. unfold seeds. by rewrite Ht', reseed_OneOfT.
Qed.

(** More Randomizable members than there are seeds cannot all get different
    seeds, whatever the generator is. *)
Lemma child_seeds_pigeonhole R ts :
  (MAX_SEED < Z.of_nat (length (filter (λ t, is_Randomizable t = true) ts)))%Z →
  ¬ NoDup (child_seeds R ts).
Proof.
  intros Hmany Hnodup.
  assert (Hsub : child_seeds R ts ⊆+ seqZ 0 MAX_SEED).
  { apply NoDup_submseteq; [done|]. intros seed Hseed. apply elem_of_seqZ.
    pose proof (draws_range (length (filter (λ t, is_Randomizable t = true) ts)) R) as Hr.
    rewrite Forall_forall in Hr. specialize (Hr seed Hseed). lia. }
  apply submseteq_length in Hsub.
  rewrite child_seeds_length, length_seqZ in Hsub.
  pose proof (randint_range R). lia.
Qed.

(** ** The trace stack *)

Lemma string_length_app (s1 s2 : string) :
  String.length (s1 +:+ s2) = String.length s1 + String.length s2.
Proof. induction s1 as [|a s1 IH]; simpl; [done|]. by rewrite IH. Qed.

Lemma string_app_inj_r (s1 s2 t : string) : s1 +:+ t = s2 +:+ t → s1 = s2.
Proof.
  revert s2. induction s1 as [|a s1 IH]; intros [|b s2] Heq.
  - done.
  - apply (f_equal String.length) in Heq.
    rewrite !string_length_app in Heq. simpl in Heq. lia.
  - apply (f_equal String.length) in Heq.
    rewrite !string_length_app in Heq. simpl in Heq. lia.
  - injection Heq as -> Heq. f_equal. by apply IH.
Qed.

Lemma trace_key_inj key key' : trace_key key = trace_key key' → key = key'.
Proof. apply string_app_inj_r. Qed.

Lemma traces_insert_eq d key l : traces (<[trace_key key := VTrace l]> d) key = l.
Proof. unfold traces. by rewrite lookup_insert_eq. Qed.

Lemma traces_insert_ne d key k v :
  k ≠ trace_key key → traces (<[k := v]> d) key = traces d key.
Proof. intros Hne. unfold traces. by rewrite lookup_insert_ne. Qed.

Lemma traces_push cls self d key extra :
  traces (push_transform cls self d key extra) key = traces d key ++ [TraceEntry cls self extra].
Proof. apply traces_insert_eq. Qed.

Lemma traces_push_ne cls self d key key' extra :
  key' ≠ key → traces (push_transform cls self d key extra) key' = traces d key'.
Proof.
  intros Hne. apply traces_insert_ne. intros Heq. by apply trace_key_inj in Heq.
Qed.

Lemma pop_transform_Ok cls self d key e d' :
  pop_transform cls self d key = Ok (e, d') →
  traces d key = traces d' key ++ [e] ∧ pushed_by cls self e ∧
  d' = <[trace_key key := VTrace (traces d' key)]> d.
Proof.
  unfold pop_transform. destruct (last (traces d key)) as [e0|] eqn:Hlast; [|done].
  case_decide; [|done]. intros [= <- <-].
  apply last_Some in Hlast as [l Hl]. rewrite traces_insert_eq, Hl, removelast_last.
  done.
Qed.

Lemma pop_transform_empty cls self d key :
  traces d key = [] → pop_transform cls self d key = Raise out_of_order.
Proof. intros Hnil. unfold pop_transform. by rewrite Hnil. Qed.

Lemma pop_transform_mismatch cls self d key e :
  last (traces d key) = Some e → ¬ pushed_by cls self e →
  pop_transform cls self d key = Raise out_of_order.
Proof. intros Hlast Hne. unfold pop_transform. rewrite Hlast. by rewrite decide_False. Qed.

Lemma pop_transform_top cls self d key e :
  last (traces d key) = Some e → pushed_by cls self e →
  pop_transform cls self d key =
    Ok (e, <[trace_key key := VTrace (removelast (traces d key))]> d).
Proof. intros Hlast Hcls. unfold pop_transform. rewrite Hlast. by rewrite decide_True. Qed.

Lemma pop_push cls self d key extra :
  pop_transform cls self (push_transform cls self d key extra) key =
    Ok (TraceEntry cls self extra, <[trace_key key := VTrace (traces d key)]> d).
Proof.
  rewrite (pop_transform_top _ _ _ _ (TraceEntry cls self extra)).
  - rewrite traces_push, removelast_last. unfold push_transform.
    by rewrite insert_insert_eq.
  - by rewrite traces_push, last_snoc.
  - done.
Qed.

Lemma pop_transform_Raise cls self d key err :
  pop_transform cls self d key = Raise err →
  err = out_of_order ∧
  (traces d key = [] ∨ ∃ e, last (traces d key) = Some e ∧ ¬ pushed_by cls self e).
Proof.
  unfold pop_transform. destruct (traces d key) as [|e0 l] eqn:Htr.
  - intros [= <-]. auto.
  - destruct (last (e0 :: l)) as [e|] eqn:Hlast; [|by apply last_None in Hlast].
    case_decide; [done|]. intros [= <-]. eauto.
Qed.


(** *** The invertible transform of the tests *)

Lemma keys_of_record_cons key keys d :
  keys_of_record (key :: keys) d →
  (key ∉ keys) ∧ (∀ k', key ≠ trace_key k') ∧ (∃ x, d !! key = Some (VFloat x)) ∧
  (∀ d', (∀ k, k ∈ keys → d' !! k = d !! k) → keys_of_record keys d').
Proof.
  intros (Hnd & Hnt & Hval). apply NoDup_cons in Hnd as [Hnin Hnd].
  split; [done|]. split.
  { intros k' ->. apply (Hnt k'). left. }
  split; [apply Hval; left|].
  intros d' Hd'. split; [done|]. split.
  - intros k' Hin. apply (Hnt k'). by right.
  - intros k Hin. rewrite Hd' by done. apply Hval. by right.
Qed.

Lemma Inv_call_loop_pushes cls self fwd_fn keys d :
  keys_of_record keys d →
  ∃ d', Inv_call_loop cls self fwd_fn keys d = Ok d' ∧
        (∀ k, k ∈ keys → traces d' k = traces d k ++ [TraceEntry cls self ∅]) ∧
        (∀ k, k ∉ keys → traces d' k = traces d k).
Proof.
  revert d. induction keys as [|key keys IH]; intros d Hkeys.
  { exists d. split; [done|]. split; [by intros k ?%elem_of_nil|done]. }
  pose proof Hkeys as (_ & Hnt' & _).
  apply keys_of_record_cons in Hkeys as (Hnin & Hnt & [x Hx] & Hrest).
  simpl. rewrite Hx.
  set (d1 := push_transform cls self (<[key:=VFloat (fwd_fn x)]> d) key ∅).
  assert (Hkey : traces d1 key = traces d key ++ [TraceEntry cls self ∅]).
  { unfold d1. rewrite traces_push, traces_insert_ne; [done|apply Hnt]. }
  assert (Hother : ∀ k, k ≠ key → traces d1 k = traces d k).
  { intros k Hne. unfold d1. rewrite traces_push_ne, traces_insert_ne; [done|apply Hnt|done]. }
  destruct (IH d1) as (d' & Hloop & Hin & Hout).
  { apply Hrest. intros k Hk. unfold d1, push_transform.
    rewrite !lookup_insert_ne; [done|by intros ->|].
    intros <-. apply (Hnt' key). by right. }
  exists d'. split; [done|]. split.
  - intros k [->|Hk]%elem_of_cons.
    + by rewrite Hout, Hkey.
    + rewrite Hin, Hother; [done| |done]. by intros ->.
  - intros k [Hne Hk]%not_elem_of_cons. by rewrite Hout, Hother.
Qed.

Lemma Inv_inverse_loop_pops cls self inv_fn keys d :
  keys_of_record keys d →
  (∀ k, k ∈ keys → ∃ e, last (traces d k) = Some e ∧ pushed_by cls self e) →
  ∃ d', Inv_inverse_loop cls self inv_fn keys d = Ok d' ∧
        (∀ k, k ∈ keys → ∃ e, traces d k = traces d' k ++ [e] ∧ pushed_by cls self e) ∧
        (∀ k, k ∉ keys → traces d' k = traces d k).
Proof.
  revert d. induction keys as [|key keys IH]; intros d Hkeys Htop.
  { exists d. split; [done|]. split; [by intros k ?%elem_of_nil|done]. }
  pose proof Hkeys as (_ & Hnt' & _).
  apply keys_of_record_cons in Hkeys as (Hnin & Hnt & [x Hx] & Hrest).
  simpl. rewrite Hx.
  destruct (Htop key) as (e & Hlast & Hcls); [left|].
  set (d0 := <[key:=VFloat (inv_fn x)]> d).
  assert (Hd0 : ∀ k, traces d0 k = traces d k).
  { intros k. apply traces_insert_ne, Hnt. }
  rewrite (pop_transform_top cls self d0 key e) by by rewrite ?Hd0.
  set (d1 := <[trace_key key:=VTrace (removelast (traces d0 key))]> d0).
  assert (Hkey : traces d key = traces d1 key ++ [e]).
  { unfold d1. rewrite traces_insert_eq, Hd0.
    apply last_Some in Hlast as [l ->]. by rewrite removelast_last. }
  assert (Hother : ∀ k, k ≠ key → traces d1 k = traces d k).
  { intros k Hne. unfold d1. rewrite traces_insert_ne, Hd0; [done|].
    intros Heq. by apply trace_key_inj in Heq. }
  destruct (IH d1) as (d' & Hloop & Hin & Hout).
  { apply Hrest. intros k Hk. unfold d1, d0.
    rewrite !lookup_insert_ne; [done|by intros ->|].
    intros <-. apply (Hnt' key). by right. }
  { intros k Hk. rewrite Hother by by intros ->. apply Htop. by right. }
  exists d'. split; [done|]. split.
  - intros k [->|Hk]%elem_of_cons.
    + exists e. by rewrite Hout.
    + destruct (Hin k Hk) as (e' & He' & Hcls'). exists e'.
      rewrite <- Hother; [done|by intros ->].
  - intros k [Hne Hk]%not_elem_of_cons. by rewrite Hout, Hother.
Qed.

Lemma Inv_inverse_loop_out_of_order cls self inv_fn keys d bad :
  keys_of_record keys d →
  bad ∈ keys →
  (traces d bad = [] ∨ ∃ e, last (traces d bad) = Some e ∧ ¬ pushed_by cls self e) →
  Inv_inverse_loop cls self inv_fn keys d = Raise out_of_order.
Proof.
  revert d. induction keys as [|key keys IH]; intros d Hkeys Hbad Htop.
  { by apply elem_of_nil in Hbad. }
  pose proof Hkeys as (_ & Hnt' & _).
  apply keys_of_record_cons in Hkeys as (Hnin & Hnt & [x Hx] & Hrest).
  simpl. rewrite Hx.
  set (d0 := <[key:=VFloat (inv_fn x)]> d).
  assert (Hd0 : ∀ k, traces d0 k = traces d k).
  { intros k. apply traces_insert_ne, Hnt. }
  destruct (pop_transform cls self d0 key) as [[e d1]|err] eqn:Hpop.
  - assert (Hne : bad ≠ key).
    { intros ->. unfold pop_transform in Hpop. rewrite Hd0 in Hpop.
      destruct Htop as [Hnil|(e' & Hlast & Hcls)].
      - by rewrite Hnil in Hpop.
      - rewrite Hlast in Hpop. by rewrite decide_False in Hpop. }
    apply elem_of_cons in Hbad as [?|Hbad]; [done|].
    apply pop_transform_Ok in Hpop as (_ & _ & Hd1).
    assert (Hother : traces d1 bad = traces d bad).
    { rewrite Hd1, traces_insert_ne, Hd0; [done|].
      intros Heq. by apply trace_key_inj in Heq. }
    apply IH; [|done|by rewrite Hother].
    apply Hrest. intros k Hk. rewrite Hd1. unfold d0.
    rewrite !lookup_insert_ne; [done|by intros ->|].
    intros <-. apply (Hnt' key). by right.
  - by apply pop_transform_Raise in Hpop as [-> _].
Qed.


Lemma trace_key_not_key keys d key k' :
  keys_of_record keys d → key ∈ keys → key ≠ trace_key k'.
Proof. intros (_ & Hnt & _) Hin ->. by apply (Hnt k'). Qed.

(** What [Inv.__call__] leaves under each key of the record. *)
Lemma Inv_call_loop_lookup cls self fwd_fn keys d :
  keys_of_record keys d →
  ∃ d1, Inv_call_loop cls self fwd_fn keys d = Ok d1 ∧
    (∀ k, k ∈ keys → ∃ x, d !! k = Some (VFloat x) ∧
                          d1 !! k = Some (VFloat (fwd_fn x)) ∧
                          traces d1 k = traces d k ++ [TraceEntry cls self ∅]) ∧
    (∀ k, k ∉ keys → (∀ k', k' ∈ keys → k ≠ trace_key k') → d1 !! k = d !! k).
Proof.
  revert d. induction keys as [|key keys IH]; intros d Hkeys.
  { exists d. split; [done|]. split; [by intros k ?%elem_of_nil|done]. }
  pose proof Hkeys as Hkeys0.
  apply keys_of_record_cons in Hkeys as (Hnin & Hnt & [x Hx] & Hrest).
  simpl. rewrite Hx.
  set (d0 := push_transform cls self (<[key:=VFloat (fwd_fn x)]> d) key ∅).
  assert (Hd0 : ∀ k, k ≠ key → k ≠ trace_key key → d0 !! k = d !! k).
  { intros k Hne Hne'. unfold d0, push_transform. by rewrite !lookup_insert_ne. }
  assert (Hd0key : d0 !! key = Some (VFloat (fwd_fn x))).
  { unfold d0, push_transform. rewrite lookup_insert_ne by (symmetry; apply Hnt).
    by rewrite lookup_insert_eq. }
  assert (Hd0tr : traces d0 key = traces d key ++ [TraceEntry cls self ∅]).
  { unfold d0. rewrite traces_push, traces_insert_ne; [done|apply Hnt]. }
  assert (Hd0other : ∀ k, k ≠ key → traces d0 k = traces d k).
  { intros k Hne. unfold d0. rewrite traces_push_ne, traces_insert_ne; [done|apply Hnt|done]. }
  destruct (IH d0) as (d1 & Hloop & Hin & Hout).
  { apply Hrest. intros k Hk. apply Hd0; [by intros ->|].
    eapply trace_key_not_key; [done|by right]. }
  exists d1. split; [done|]. split.
  - intros k [->|Hk]%elem_of_cons.
    + exists x. split; [done|].
      assert (Hfix : d1 !! key = d0 !! key).
      { apply Hout; [done|]. intros k' Hk'. eapply trace_key_not_key; [done|left]. }
      split; [by rewrite Hfix|].
      unfold traces at 1. rewrite Hout; [by fold (traces d0 key)| |].
      * intros Hbad. destruct Hkeys0 as (_ & Hnt0 & _). apply (Hnt0 key). by right.
      * intros k' Hk' Heq%trace_key_inj. by subst k'.
    + destruct (Hin k Hk) as (x' & Hx' & Hv & Ht). exists x'.
      assert (Hne : k ≠ key) by by intros ->.
      rewrite Hd0 in Hx'; [|done|eapply trace_key_not_key; [done|by right]].
      split; [done|]. split; [done|]. by rewrite Ht, Hd0other.
  - intros k [Hne Hk]%not_elem_of_cons Hntk.
    rewrite Hout; [|done|intros k' Hk'; apply Hntk; by right].
    apply Hd0; [done|]. apply Hntk. left.
Qed.

(** ** [OneOf]: the recorded branch *)


Lemma OneOf_push_key_touched index key d l :
  d !! trace_key key = Some (VTrace l) →
  OneOf_push_key index key d = <[trace_key key := VTrace (l ++ [OneOf_entry index])]> d.
Proof.
  intros Hl. unfold OneOf_push_key, push_transform, traces. by rewrite Hl.
Qed.

Lemma OneOf_push_key_untouched index key d :
  ¬ touched d key → OneOf_push_key index key d = d.
Proof.
  intros Hn. unfold OneOf_push_key.
  destruct (d !! trace_key key) as [[x|l]|] eqn:Hl; try done.
  destruct Hn. by exists l.
Qed.

(** What the recording loop has done after the keys [ks]. *)
Lemma foldr_OneOf_push_key index d ks :
  NoDup ks →
  (∀ k l, k ∈ ks → d !! trace_key k = Some (VTrace l) →
          foldr (OneOf_push_key index) d ks !! trace_key k
            = Some (VTrace (l ++ [OneOf_entry index]))) ∧
  (∀ tk, (∀ k, k ∈ ks → touched d k → trace_key k ≠ tk) →
         foldr (OneOf_push_key index) d ks !! tk = d !! tk).
Proof.
  induction 1 as [|key ks Hnin Hnd [IHin IHout]].
  { split; [by intros k l ?%elem_of_nil|done]. }
  simpl. set (acc := foldr (OneOf_push_key index) d ks) in *.
  assert (Hacc : acc !! trace_key key = d !! trace_key key).
  { apply IHout. intros k Hk _ Heq. apply trace_key_inj in Heq. by subst. }
  destruct (decide (touched d key)) as [[l Hl]|Hn].
  - rewrite (OneOf_push_key_touched index key acc l) by by rewrite Hacc.
    split.
    + intros k l' [->|Hk]%elem_of_cons Hl'.
      * rewrite lookup_insert_eq. congruence.
      * rewrite lookup_insert_ne; [by apply IHin|].
        intros Heq. apply trace_key_inj in Heq. by subst.
    + intros tk Htk. rewrite lookup_insert_ne.
      * apply IHout. intros k Hk. apply Htk. by right.
      * apply Htk; [left|by exists l].
  - rewrite OneOf_push_key_untouched.
    2:{ intros [l Hl]. apply Hn. exists l. by rewrite <- Hacc. }
    split.
    + intros k l' [->|Hk]%elem_of_cons Hl'; [|by apply IHin].
      destruct Hn. by exists l'.
    + intros tk Htk. apply IHout. intros k Hk. apply Htk. by right.
Qed.

Lemma elem_of_keys (d : gmap string value) k : k ∈ (map_to_list d).*1 ↔ is_Some (d !! k).
Proof.
  rewrite list_elem_of_fmap. split.
  - intros ([k' v] & -> & Hin). apply elem_of_map_to_list in Hin. by exists v.
  - intros [v Hv]. exists (k, v). split; [done|]. by apply elem_of_map_to_list.
Qed.

Lemma OneOf_push_touched index d key l :
  is_Some (d !! key) → d !! trace_key key = Some (VTrace l) →
  OneOf_push index d !! trace_key key = Some (VTrace (l ++ [OneOf_entry index])).
Proof.
  intros Hkey Hl. unfold OneOf_push.
  destruct (foldr_OneOf_push_key index d (map_to_list d).*1) as [Hin _].
  { apply NoDup_fst_map_to_list. }
  apply Hin; [by apply elem_of_keys|done].
Qed.

Lemma OneOf_push_other index d tk :
  (∀ k, is_Some (d !! k) → touched d k → trace_key k ≠ tk) →
  OneOf_push index d !! tk = d !! tk.
Proof.
  intros Htk. unfold OneOf_push.
  destruct (foldr_OneOf_push_key index d (map_to_list d).*1) as [_ Hout].
  { apply NoDup_fst_map_to_list. }
  apply Hout. intros k Hk. apply Htk. by apply elem_of_keys.
Qed.

Lemma OneOf_push_is_Some index d k : is_Some (OneOf_push index d !! k) ↔ is_Some (d !! k).
Proof.
  destruct (decide (Exists (λ k', touched d k' ∧ trace_key k' = k) (map_to_list d).*1))
    as [(k' & Hk' & [l Hl] & <-)%Exists_exists|Hn].
  - apply elem_of_keys in Hk'. by rewrite (OneOf_push_touched index d k' l), Hl.
  - rewrite OneOf_push_other; [done|]. intros k' Hk' Ht Heq. apply Hn, Exists_exists.
    exists k'. split; [by apply elem_of_keys|done].
Qed.

(** The reading loop, run on a record [d'] that agrees with the recorded
    [OneOf_push index d] on the trace fields of the keys [ks]. *)
Lemma foldr_OneOf_pop_key index d ks :
  NoDup ks →
  (∀ k, k ∈ ks → is_Some (d !! k)) →
  ∃ idx d',
    foldr OneOf_pop_key (Ok (None, OneOf_push index d)) ks = Ok (idx, d') ∧
    (∀ k, k ∈ ks → d' !! trace_key k = d !! trace_key k) ∧
    (∀ tk, (∀ k, k ∈ ks → trace_key k ≠ tk) → d' !! tk = OneOf_push index d !! tk) ∧
    idx = if decide (Exists (touched d) ks) then Some index else None.
Proof.
  induction 1 as [|key ks Hnin Hnd IH]; intros Hks.
  { exists None, (OneOf_push index d). split; [done|].
    split; [by intros k ?%elem_of_nil|]. split; [done|].
    rewrite decide_False; [done|]. by intros ?%Exists_nil. }
  destruct IH as (idx & d' & Hfold & Hin & Hout & Hidx).
  { intros k Hk. apply Hks. by right. }
  simpl. rewrite Hfold. unfold OneOf_pop_key.
  assert (Hd' : d' !! trace_key key = OneOf_push index d !! trace_key key).
  { apply Hout. intros k Hk Heq. apply trace_key_inj in Heq. by subst. }
  destruct (decide (touched d key)) as [[l Hl]|Hn].
  - assert (Htr : traces d' key = l ++ [OneOf_entry index]).
    { unfold traces. rewrite Hd', (OneOf_push_touched index d key l); [done| |done].
      apply Hks. left. }
    rewrite Htr, last_snoc. rewrite decide_True by done.
    change (extra_info (OneOf_entry index) !! "index") with (Some index).
    rewrite (pop_transform_top "OneOf" OneOf_id d' key (OneOf_entry index))
      by by rewrite ?Htr, ?last_snoc.
    rewrite Htr, removelast_last.
    eexists _, _. split; [done|]. split; [|split].
    + intros k [->|Hk]%elem_of_cons.
      * by rewrite lookup_insert_eq.
      * rewrite lookup_insert_ne; [by apply Hin|].
        intros Heq. apply trace_key_inj in Heq. by subst.
    + intros tk Htk. rewrite lookup_insert_ne.
      * apply Hout. intros k Hk. apply Htk. by right.
      * apply Htk. left.
    + rewrite decide_True; [done|]. apply Exists_cons. left. by exists l.
  - assert (Hsame : OneOf_push index d !! trace_key key = d !! trace_key key).
    { apply OneOf_push_other. intros k _ Ht Heq. apply trace_key_inj in Heq. by subst. }
    assert (Htr : traces d' key = []).
    { unfold traces. rewrite Hd', Hsame.
      destruct (d !! trace_key key) as [[x|l]|] eqn:Hl; try done.
      destruct Hn. by exists l. }
    rewrite Htr. simpl.
    exists idx, d'. split; [done|]. split; [|split].
    + intros k [->|Hk]%elem_of_cons; [|by apply Hin]. by rewrite Hd', Hsame.
    + intros tk Htk. apply Hout. intros k Hk. apply Htk. by right.
    + rewrite Hidx. destruct (decide (Exists (touched d) ks)) as [He|He].
      * rewrite decide_True; [done|]. apply Exists_cons. by right.
      * rewrite decide_False; [done|]. by intros [?|?]%Exists_cons.
Qed.

(** Reading back what was recorded: the recorded index, if any key was
    touched, and the record as it was before the recording. *)
Lemma OneOf_pop_push index d :
  OneOf_pop (OneOf_push index d) =
    Ok (if decide (Exists (touched d) (map_to_list d).*1) then Some index else None, d).
Proof.
  unfold OneOf_pop.
  set (ks := (map_to_list (OneOf_push index d)).*1).
  assert (Hks : ∀ k, k ∈ ks ↔ is_Some (d !! k)).
  { intros k. unfold ks. by rewrite elem_of_keys, OneOf_push_is_Some. }
  destruct (foldr_OneOf_pop_key index d ks) as (idx & d' & Hfold & Hin & Hout & Hidx).
  { apply NoDup_fst_map_to_list. }
  { intros k Hk. by apply Hks. }
  rewrite Hfold. f_equal. f_equal.
  - rewrite Hidx. apply decide_ext. rewrite !Exists_exists.
    split; intros (k & Hk & Ht); exists k; (split; [|done]).
    + apply elem_of_keys. by apply Hks.
    + apply Hks. by apply elem_of_keys.
  - apply map_eq. intros tk.
    destruct (decide (Exists (λ k, trace_key k = tk) ks)) as [He|He].
    + apply Exists_exists in He as (k & Hk & <-). by apply Hin.
    + rewrite Hout.
      * apply OneOf_push_other. intros k Hk _ Heq. apply He, Exists_exists.
        exists k. split; [by apply Hks|done].
      * intros k Hk Heq. apply He, Exists_exists. eauto.
Qed.

Lemma traces_untouched d key : ¬ touched d key → traces d key = [].
Proof.
  intros Hn. unfold traces. destruct (d !! trace_key key) as [[x|l]|] eqn:Hl; try done.
  destruct Hn. by exists l.
Qed.

(** When no key is touched nothing is recorded, and nothing is read back. *)
Lemma OneOf_push_untouched index d :
  ¬ Exists (touched d) (map_to_list d).*1 → OneOf_push index d = d.
Proof.
  intros Hn. apply map_eq. intros tk. apply OneOf_push_other.
  intros k Hk Ht _. apply Hn, Exists_exists. exists k. split; [by apply elem_of_keys|done].
Qed.

Lemma OneOf_pop_untouched d :
  ¬ Exists (touched d) (map_to_list d).*1 →
  OneOf_pop d = Ok (None, d) ∧ existsb (has_entries d) (map_to_list d).*1 = false.
Proof.
  unfold OneOf_pop. induction (map_to_list d).*1 as [|key ks IH]; intros Hn; [done|].
  assert (Hkey : ¬ touched d key) by (intros Ht; apply Hn, Exists_cons; by left).
  assert (Hks : ¬ Exists (touched d) ks) by (intros Ht; apply Hn, Exists_cons; by right).
  destruct (IH Hks) as [Hpop Hnone].
  apply traces_untouched in Hkey. split.
  - simpl. rewrite Hpop. unfold OneOf_pop_key. by rewrite Hkey.
  - simpl. unfold has_entries at 1. by rewrite Hkey.
Qed.

Lemma call_at_lookup data h ts index :
  call_at data h ts index =
    match ts !! index with
    | Some t => let '(t', h1, r) := apply_transform t data h in (<[index := t']> ts, h1, r)
    | None => (ts, h, Raise (IndexError "tuple index out of range"))
    end.
Proof.
  revert index. induction ts as [|t ts IH]; intros [|i]; try done.
  change (call_at data h (t :: ts) (S i))
    with (let '(ts'', h1, r) := call_at data h ts i in (t :: ts'', h1, r)).
  rewrite IH. change ((t :: ts) !! S i) with (ts !! i).
  destruct (ts !! i) as [t0|]; [|done].
  by destruct (apply_transform t0 data h) as [[??]?].
Qed.

Lemma inverse_at_lookup data h ts index :
  inverse_at data h ts index =
    match ts !! index with
    | Some t =>
        if is_Invertible t then inverse t NotPassed data h else (h, Raise not_invertible)
    | None => (h, Raise (IndexError "tuple index out of range"))
    end.
Proof.
  revert index. induction ts as [|t ts IH]; intros [|i]; try done. apply IH.
Qed.

Lemma call_OneOfT R ts ws data h :
  call (OneOfT R ts ws) data h =
    let '(index, R') := multinomial_argmax ws R in
    let '(ts', h', r) := OneOf_call_at ts index data h in
    (OneOfT R' ts' ws, h', r).
Proof. reflexivity. Qed.

Lemma deref_PMap h l d : deref h l = PMap d → h !! l = Some (PMap d).
Proof. unfold deref. destruct (h !! l) as [o|]; simpl; [by intros ->|done]. Qed.


Lemma triple_eq {A B C} (c : A * B * C) a b d :
  c.1.1 = a → c.1.2 = b → c.2 = d → c = (a, b, d).
Proof. destruct c as [[??]?]. simpl. by intros -> -> ->. Qed.

Lemma pair_eq {A B} (c : A * B) a b : c.1 = a → c.2 = b → c = (a, b).
Proof. destruct c. simpl. by intros -> ->. Qed.

(** The heap and the outcome of a call are found by evaluation; the
    transforms after it are left alone (their operations are functions). *)
Ltac exists_heap_and_loc c :=
  let h := eval vm_compute in (c.1) in
  let r := eval vm_compute in (c.2) in
  match r with Ok ?l => exists h, l end.

Lemma OneOf_InvA_InvB_round_trip_at index :
  index < 2 →
  ∃ h' out h'' out',
    OneOf_call_at [InvA 1 KEYS; InvB 2 KEYS] index 0 [PMap data_xy]
      = ([InvA 1 KEYS; InvB 2 KEYS], h', Ok out) ∧
    OneOf_inverse [InvA 1 KEYS; InvB 2 KEYS] out h' = (h'', Ok out') ∧
    deref h'' out' = PMap data_xy_inverted ∧ deref h'' 0 = PMap data_xy.
Proof.
  intros Hindex.
  destruct index as [|[|index]]; [| |lia].
  - exists_heap_and_loc
      ((OneOf_call_at [InvA 1 KEYS; InvB 2 KEYS] 0 0 [PMap data_xy]).1.2,
       (OneOf_call_at [InvA 1 KEYS; InvB 2 KEYS] 0 0 [PMap data_xy]).2).
    match goal with |- ∃ _ _, _ ∧ OneOf_inverse ?ts ?o ?h = _ ∧ _ =>
      exists_heap_and_loc (OneOf_inverse ts o h) end.
    split; [apply triple_eq; [reflexivity|vm_compute; reflexivity..]|].
    split; [apply pair_eq; vm_compute; reflexivity|].
    split; vm_compute; reflexivity.
  - exists_heap_and_loc
      ((OneOf_call_at [InvA 1 KEYS; InvB 2 KEYS] 1 0 [PMap data_xy]).1.2,
       (OneOf_call_at [InvA 1 KEYS; InvB 2 KEYS] 1 0 [PMap data_xy]).2).
    match goal with |- ∃ _ _, _ ∧ OneOf_inverse ?ts ?o ?h = _ ∧ _ =>
      exists_heap_and_loc (OneOf_inverse ts o h) end.
    split; [apply triple_eq; [reflexivity|vm_compute; reflexivity..]|].
    split; [apply pair_eq; vm_compute; reflexivity|].
    split; vm_compute; reflexivity.
Qed.

(** *** What a pipeline pushes *)

Lemma traces_lookup d key l :
  traces d key = l → l ≠ [] → d !! trace_key key = Some (VTrace l).
Proof.
  unfold traces. destruct (d !! trace_key key) as [[x|l']|]; intros <-; done.
Qed.

Lemma keys_of_record_Inv_call_loop cls self fwd_fn keys d d1 :
  keys_of_record keys d → Inv_call_loop cls self fwd_fn keys d = Ok d1 →
  keys_of_record keys d1.
Proof.
  intros Hkeys Hloop.
  destruct (Inv_call_loop_lookup cls self fwd_fn keys d Hkeys) as (d1' & Hloop' & Hin & _).
  rewrite Hloop in Hloop'. injection Hloop' as <-.
  destruct Hkeys as (Hnd & Hnt & Hval). split; [done|]. split; [done|].
  intros k Hk. destruct (Hin k Hk) as (x & _ & Hx & _). eauto.
Qed.

(** One application of an [Inv] object to a record of the heap. *)
Lemma call_Inv cls self fwd_fn inv_fn keys d x h :
  keys_of_record keys d → deref h x = PMap d →
  ∃ d1, Inv_call_loop cls self fwd_fn keys d = Ok d1 ∧
        call (Leaf (Inv cls self fwd_fn inv_fn keys)) x h =
          (Leaf (Inv cls self fwd_fn inv_fn keys), h ++ [PMap d1], Ok (length h)).
Proof.
  intros Hkeys Hx.
  destruct (Inv_call_loop_pushes cls self fwd_fn keys d Hkeys) as (d1 & Hloop & _).
  exists d1. split; [done|].
  unfold call, Inv, on_copy. cbn [leaf_call leaf_R]. rewrite Hx, Hloop.
  unfold commit, alloc. rewrite length_insert.
  assert (Hh : <[x:=PMap d]> h = h) by by apply list_insert_id, deref_PMap.
  by rewrite Hh.
Qed.

Lemma deref_app_length h v : deref (h ++ [v]) (length h) = v.
Proof. unfold deref. by rewrite lookup_app_r, Nat.sub_diag by lia. Qed.

(** A pipeline of [Inv] objects pushes one entry per member. *)
Lemma Compose_call_Inv_members keys specs d x h :
  keys_of_record keys d → deref h x = PMap d →
  ∃ ts' h' out d',
    Compose_call (Inv_members keys specs) x h = (ts', h', Ok out) ∧
    deref h' out = PMap d' ∧
    (∀ k, k ∈ keys → traces d' k = traces d k ++ Inv_entries specs) ∧
    (∀ k, k ∉ keys → traces d' k = traces d k).
Proof.
  revert d x h. induction specs as [|[[[cls self] fwd_fn] inv_fn] specs IH];
    intros d x h Hkeys Hx.
  { exists [], h, x, d. split; [done|]. split; [done|].
    split; [|done]. intros k _. by rewrite app_nil_r. }
  cbn [Inv_members map]. fold (Inv_members keys specs).
  rewrite Compose_call_cons. unfold apply_transform, apply_transform_with.
  destruct (call_Inv cls self fwd_fn inv_fn keys d x h Hkeys Hx) as (d1 & Hloop & ->).
  destruct (Inv_call_loop_pushes cls self fwd_fn keys d Hkeys) as (d1' & Hloop' & Hin & Hout).
  rewrite Hloop in Hloop'. injection Hloop' as <-.
  destruct (IH d1 (length h) (h ++ [PMap d1])) as (ts' & h' & out & d' & -> & Hd' & Hin' & Hout').
  { by eapply keys_of_record_Inv_call_loop. }
  { apply deref_app_length. }
  eexists _, h', out, d'. split; [done|]. split; [done|]. split.
  - intros k Hk. rewrite Hin', Hin by done. cbn [Inv_entries map].
    by rewrite <- app_assoc.
  - intros k Hk. by rewrite Hout', Hout.
Qed.

Lemma Inv_entries_length specs : length (Inv_entries specs) = length specs.
Proof. apply length_map. Qed.

(** [OneOf] with an [Inv] object selected pushes the entry of the object
    and then its own. *)
Lemma OneOf_call_at_Inv ts index cls self fwd_fn inv_fn keys d x h :
  ts !! index = Some (Leaf (Inv cls self fwd_fn inv_fn keys)) →
  keys_of_record keys d → deref h x = PMap d →
  ∃ ts' h' out d',
    OneOf_call_at ts index x h = (ts', h', Ok out) ∧
    deref h' out = PMap d' ∧
    (∀ k, k ∈ keys →
          traces d' k = traces d k ++ [TraceEntry cls self ∅; OneOf_entry index]).
Proof.
  intros Hts Hkeys Hx.
  destruct (call_Inv cls self fwd_fn inv_fn keys d x h Hkeys Hx) as (d1 & Hloop & Hcall).
  destruct (Inv_call_loop_lookup cls self fwd_fn keys d Hkeys) as (d1' & Hloop' & Hin & _).
  rewrite Hloop in Hloop'. injection Hloop' as <-.
  unfold OneOf_call_at, OneOf_call_at_with. fold (call_at x h ts index).
  rewrite call_at_lookup, Hts. unfold apply_transform, apply_transform_with.
  rewrite Hcall, Hx, deref_app_length.
  eexists _, _, (length h), (OneOf_push index d1). split; [done|]. split.
  { unfold deref. rewrite list_lookup_insert_eq; [done|]. rewrite length_app. simpl. lia. }
  intros k Hk. destruct (Hin k Hk) as (v & _ & Hv & Htr).
  unfold traces at 1.
  rewrite (OneOf_push_touched index d1 k (traces d k ++ [TraceEntry cls self ∅])).
  - by rewrite <- app_assoc.
  - by rewrite Hv.
  - apply traces_lookup; [done|]. by destruct (traces d k).
Qed.

(** C2, as the sources have it: the trace entries of a key form a stack.
    A push appends exactly one entry for its key, with the class identifier
    and the identity of the pushing object, and touches no other key; a pop
    removes exactly the last entry, and is refused with a usage error when
    that entry was not pushed by the invoking object (an entry of another
    class, or of another object of the same class) or when there is none.
    So an object of the class [Inv] of the tests adds exactly one entry for
    each key it acts on when applied, and none for another key; inverted,
    it removes exactly one per key; an inversion out of order raises, and so
    does the inversion by any other object of the record that an object has
    just been applied to.  The count is not one for every invertible
    transform: a [Compose], which is an [InvertibleTransform] itself, adds
    for each key the entries of all its members (as many as it has members
    of the class [Inv]: none, two, ...), and a [OneOf] adds the entry of the
    selected member and then its own, two in all. *)
Theorem trace_stack_discipline :
  (∀ cls self d key extra,
     traces (push_transform cls self d key extra) key
       = traces d key ++ [TraceEntry cls self extra] ∧
     length (traces (push_transform cls self d key extra) key) = S (length (traces d key))) ∧
  (∀ cls self d key key' extra,
     key' ≠ key → traces (push_transform cls self d key extra) key' = traces d key') ∧
  (∀ cls self d key e d',
     pop_transform cls self d key = Ok (e, d') →
     traces d key = traces d' key ++ [e] ∧
     length (traces d key) = S (length (traces d' key)) ∧ pushed_by cls self e) ∧
  (∀ cls self d key extra,
     pop_transform cls self (push_transform cls self d key extra) key =
       Ok (TraceEntry cls self extra, <[trace_key key := VTrace (traces d key)]> d)) ∧
  (∀ cls self d key, traces d key = [] → pop_transform cls self d key = Raise out_of_order) ∧
  (∀ cls self d key e,
     last (traces d key) = Some e → ¬ pushed_by cls self e →
     pop_transform cls self d key = Raise out_of_order) ∧
  (∀ cls self fwd_fn inv_fn keys d,
     keys_of_record keys d →
     is_Invertible (Leaf (Inv cls self fwd_fn inv_fn keys)) = true ∧
     ∃ d', leaf_call (Inv cls self fwd_fn inv_fn keys) None (PMap d)
             = (None, (PMap d, Ok (Some (PMap d')))) ∧
           (∀ k, k ∈ keys → traces d' k = traces d k ++ [TraceEntry cls self ∅] ∧
                            length (traces d' k) = S (length (traces d k))) ∧
           (∀ k, k ∉ keys → traces d' k = traces d k)) ∧
  (∀ cls self fwd_fn inv_fn keys d,
     keys_of_record keys d →
     (∀ k, k ∈ keys → ∃ e, last (traces d k) = Some e ∧ pushed_by cls self e) →
     ∃ d', leaf_inverse (Inv cls self fwd_fn inv_fn keys) NotPassed (PMap d)
             = (PMap d, Ok (Some (PMap d'))) ∧
           (∀ k, k ∈ keys → ∃ e, traces d k = traces d' k ++ [e] ∧
                                 length (traces d k) = S (length (traces d' k))) ∧
           (∀ k, k ∉ keys → traces d' k = traces d k)) ∧
  (∀ cls self fwd_fn inv_fn keys d bad,
     keys_of_record keys d →
     bad ∈ keys →
     (traces d bad = [] ∨ ∃ e, last (traces d bad) = Some e ∧ ¬ pushed_by cls self e) →
     leaf_inverse (Inv cls self fwd_fn inv_fn keys) NotPassed (PMap d)
       = (PMap d, Raise out_of_order)) ∧
  (∀ cls self cls' self' fwd_fn inv_fn fwd_fn' inv_fn' keys d,
     keys_of_record keys d → keys ≠ [] →
     ¬ (cls' = cls ∧ self' = self) →
     ∃ d', leaf_call (Inv cls self fwd_fn inv_fn keys) None (PMap d)
             = (None, (PMap d, Ok (Some (PMap d')))) ∧
           leaf_inverse (Inv cls' self' fwd_fn' inv_fn' keys) NotPassed (PMap d')
             = (PMap d', Raise out_of_order)) ∧
  (∀ R specs keys d x h,
     keys_of_record keys d → deref h x = PMap d →
     is_Invertible (ComposeT R (Inv_members keys specs)) = true ∧
     ∃ t' h' out d',
       call (ComposeT R (Inv_members keys specs)) x h = (t', h', Ok out) ∧
       deref h' out = PMap d' ∧
       (∀ k, k ∈ keys → traces d' k = traces d k ++ Inv_entries specs ∧
                        length (traces d' k) = length (traces d k) + length specs) ∧
       (∀ k, k ∉ keys → traces d' k = traces d k)) ∧
  (∀ R ws ts cls self fwd_fn inv_fn keys d x h,
     ts !! (multinomial_argmax ws R).1 = Some (Leaf (Inv cls self fwd_fn inv_fn keys)) →
     keys_of_record keys d → deref h x = PMap d →
     is_Invertible (OneOfT R ts ws) = true ∧
     ∃ t' h' out d',
       call (OneOfT R ts ws) x h = (t', h', Ok out) ∧
       deref h' out = PMap d' ∧
       (∀ k, k ∈ keys →
          traces d' k = traces d k ++
            [TraceEntry cls self ∅; OneOf_entry (multinomial_argmax ws R).1] ∧
          length (traces d' k) = length (traces d k) + 2)).
Proof.
  split; [|split; [|split; [|split; [|split; [|split; [|split; [|split;
    [|split; [|split; [|split]]]]]]]]]].
  - intros cls self d key extra. rewrite traces_push, length_app. simpl. split; [done|lia].
  - intros. by apply traces_push_ne.
  - intros cls self d key e d' (Htr & Hcls & _)%pop_transform_Ok.
    split; [done|]. split; [|done]. rewrite Htr, length_app. simpl. lia.
  - apply pop_push.
  - apply pop_transform_empty.
  - apply pop_transform_mismatch.
  - intros cls self fwd_fn inv_fn keys d Hkeys. split; [done|].
    destruct (Inv_call_loop_pushes cls self fwd_fn keys d Hkeys) as (d' & Hloop & Hin & Hout).
    exists d'. unfold Inv, on_copy. cbn [leaf_call]. rewrite Hloop.
    split; [done|]. split; [|done].
    intros k Hk. rewrite Hin, length_app by done. simpl. split; [done|lia].
  - intros cls self fwd_fn inv_fn keys d Hkeys Htop.
    destruct (Inv_inverse_loop_pops cls self inv_fn keys d Hkeys Htop)
      as (d' & Hloop & Hin & Hout).
    exists d'. unfold Inv, on_copy. cbn [leaf_inverse]. rewrite Hloop.
    split; [done|]. split; [|done].
    intros k Hk. destruct (Hin k Hk) as (e & He & _). exists e.
    split; [done|]. rewrite He, length_app. simpl. lia.
  - intros cls self fwd_fn inv_fn keys d bad Hkeys Hbad Htop.
    unfold Inv, on_copy. cbn [leaf_inverse].
    by rewrite (Inv_inverse_loop_out_of_order cls self inv_fn keys d bad).
  - intros cls self cls' self' fwd_fn inv_fn fwd_fn' inv_fn' keys d Hkeys Hne Hother.
    destruct (Inv_call_loop_pushes cls self fwd_fn keys d Hkeys) as (d' & Hloop & Hin & Hout).
    exists d'. unfold Inv, on_copy. cbn [leaf_call leaf_inverse]. rewrite Hloop.
    split; [done|].
    destruct keys as [|bad keys']; [done|].
    rewrite (Inv_inverse_loop_out_of_order cls' self' inv_fn' (bad :: keys') d' bad); [done| |left|].
    + by eapply keys_of_record_Inv_call_loop.
    + right. exists (TraceEntry cls self ∅). rewrite Hin by left. rewrite last_snoc.
      split; [done|]. intros [Hc Hs]. apply Hother. simpl in *. by subst.
  - intros R specs keys d x h Hkeys Hx. split; [done|].
    destruct (Compose_call_Inv_members keys specs d x h Hkeys Hx)
      as (ts' & h' & out & d' & Hcall & Hd' & Hin & Hout).
    exists (ComposeT R ts'), h', out, d'. split.
    { change (call (ComposeT R (Inv_members keys specs)) x h)
        with (let '(ts', h', r) := Compose_call (Inv_members keys specs) x h in
              (ComposeT R ts', h', r)).
      by rewrite Hcall. }
    split; [done|]. split; [|done].
    intros k Hk. rewrite Hin by done. split; [done|].
    by rewrite length_app, Inv_entries_length.
  - intros R ws ts cls self fwd_fn inv_fn keys d x h Hts Hkeys Hx. split; [done|].
    destruct (OneOf_call_at_Inv ts _ cls self fwd_fn inv_fn keys d x h Hts Hkeys Hx)
      as (ts' & h' & out & d' & Hcall & Hd' & Hin).
    rewrite call_OneOfT. destruct (multinomial_argmax ws R) as [index R'].
    simpl in *. rewrite Hcall.
    eexists _, h', out, d'. split; [done|]. split; [done|].
    intros k Hk. rewrite Hin by done. split; [done|].
    rewrite length_app. simpl. lia.
Qed.

(** C1: when [OneOf] has applied the branch at the drawn index to a keyed
    mapping, every touched key ends with an entry of [OneOf] that carries
    this index, and [OneOf.inverse], whatever the state of the generator at
    that time, pops these entries and invokes [inverse] on that very branch,
    on the record as the branch returned it (when the branch touched no key,
    nothing is recorded and the inversion invokes no branch: it is refused);
    the inversion never reads the generator; in the scenario of the tests,
    [OneOf((InvA, InvB), weights=(1, 1))] applied to [{"x": 10.0, "y": 20.0}]
    and inverted gives the values [10.0] and [20.0] back, for every draw. *)
Theorem OneOf_inverse_replays_selected_branch :
  (∀ R ts ws data h,
     call (OneOfT R ts ws) data h =
       let '(index, R') := multinomial_argmax ws R in
       let '(ts', h', r) := OneOf_call_at ts index data h in
       (OneOfT R' ts' ws, h', r)) ∧
  (∀ ts index t data h t' h1 out d,
     ts !! index = Some t →
     call t data h = (t', h1, Ok out) →
     is_Mapping (deref h data) = true →
     deref h1 out = PMap d →
     Exists (touched d) (map_to_list d).*1 →
     let ts' := <[index := t']> ts in
     let h' := <[out := PMap (OneOf_push index d)]> h1 in
     OneOf_call_at ts index data h = (ts', h', Ok out) ∧
     (∀ key, is_Some (d !! key) → touched d key →
             last (traces (OneOf_push index d) key) = Some (OneOf_entry index)) ∧
     (∀ R ws, inverse (OneOfT R ts' ws) NotPassed out h' =
                if is_Invertible t' then inverse t' NotPassed out h1
                else (h1, Raise not_invertible))) ∧
  (∀ ts index t data h t' h1 out d,
     ts !! index = Some t →
     call t data h = (t', h1, Ok out) →
     is_Mapping (deref h data) = true →
     deref h1 out = PMap d →
     ¬ Exists (touched d) (map_to_list d).*1 →
     let ts' := <[index := t']> ts in
     OneOf_call_at ts index data h = (ts', h1, Ok out) ∧
     (∀ R ws, inverse (OneOfT R ts' ws) NotPassed out h1 = (h1, Raise nothing_applied))) ∧
  (∀ R R' ts ws k data h,
     inverse (OneOfT R ts ws) k data h = inverse (OneOfT R' ts ws) k data h) ∧
  (∀ get_seed entropy,
     OneOf_init [InvA 1 KEYS; InvB 2 KEYS] (Some [1; 1]%float) get_seed entropy =
       Ok (OneOfT (Randomizable_set_random_state get_seed None entropy)
             [InvA 1 KEYS; InvB 2 KEYS] (normalize_probabilities [1; 1]%float))) ∧
  (∀ R R_inv,
     let ws := normalize_probabilities [1; 1]%float in
     ∃ R' h' out h'' out',
       call (OneOfT R [InvA 1 KEYS; InvB 2 KEYS] ws) 0 [PMap data_xy]
         = (OneOfT R' [InvA 1 KEYS; InvB 2 KEYS] ws, h', Ok out) ∧
       inverse (OneOfT R_inv [InvA 1 KEYS; InvB 2 KEYS] ws) NotPassed out h' = (h'', Ok out') ∧
       deref h'' out' = PMap data_xy_inverted ∧
       data_xy_inverted !! "x" = Some (VFloat 10) ∧
       data_xy_inverted !! "y" = Some (VFloat 20) ∧
       deref h'' 0 = PMap data_xy).
Proof.
  split; [exact call_OneOfT|]. split.
  - intros ts index t data h t' h1 out d Hts Hcall Hmap Hout Htouched ts' h'.
    assert (Hlt : out < length h1) by by eapply lookup_lt_Some, deref_PMap.
    split; [|split].
    + unfold OneOf_call_at, OneOf_call_at_with. fold (call_at data h ts index).
      rewrite call_at_lookup, Hts. unfold apply_transform, apply_transform_with.
      rewrite Hcall, Hout. by destruct (deref h data).
    + intros key Hkey [l Hl]. unfold traces.
      by rewrite (OneOf_push_touched index d key l), last_snoc.
    + intros R ws. simpl. unfold OneOf_inverse_with. unfold deref at 1.
      subst h'. rewrite list_lookup_insert_eq by done. simpl.
      rewrite OneOf_pop_push, decide_True by done.
      rewrite list_insert_insert_eq, list_insert_id by by apply deref_PMap.
      fold (inverse_at out h1 ts' index). rewrite inverse_at_lookup.
      subst ts'. rewrite list_lookup_insert_eq; [done|]. by eapply lookup_lt_Some.
  - split.
    { intros ts index t data h t' h1 out d Hts Hcall Hmap Hout Hn ts'.
      split.
      - unfold OneOf_call_at, OneOf_call_at_with. fold (call_at data h ts index).
        rewrite call_at_lookup, Hts. unfold apply_transform, apply_transform_with.
        rewrite Hcall, Hout, OneOf_push_untouched by done.
        destruct (deref h data); try done.
        f_equal. f_equal. by apply list_insert_id, deref_PMap.
      - intros R ws. simpl. unfold OneOf_inverse_with. rewrite Hout.
        destruct (OneOf_pop_untouched d Hn) as [-> ->]. done. }
    split; [reflexivity|]. split; [reflexivity|].
    intros R R_inv ws. rewrite call_OneOfT.
    pose proof (multinomial_range ws R) as Hrange.
    destruct (multinomial_argmax ws R) as [index R']. simpl in Hrange.
    destruct (OneOf_InvA_InvB_round_trip_at index)
      as (h' & out & h'' & out' & Hc & Hi & Hd & H0).
    { apply Hrange. unfold ws. simpl. lia. }
    exists R', h', out, h'', out'. rewrite Hc. split; [done|]. split; [exact Hi|].
    split; [exact Hd|]. split; [reflexivity|]. split; [reflexivity|exact H0].
Qed.

End Properties.

(** * The scenarios, evaluated with NumPy's generator *)

Section Examples.
Local Existing Instance mt19937.

(** The first outputs of NumPy's generator for seed 0, and the four draws
    of seed 2097125. *)
Example mt19937_seed_0 :
  (draws 3 (new_RandomState 0)).1 = [2357136044; 2546248239; 3071714933]%Z.
Proof. vm_compute. reflexivity. Qed.

Example mt19937_seed_2097125 :
  (draws 4 (new_RandomState 2097125)).1
    = [1852692098; 2225052865; 3308908905; 2225052865]%Z.
Proof. vm_compute. reflexivity. Qed.

(** [Compose([OneOf((X(), Y()))])]: the nested [OneOf] counts for its two
    candidates, so the length is 2, where C5 says 1. *)
Lemma nested_OneOf_is_unrolled :
  Compose_len [OneOfT (new_RandomState 0) [X; Y] [0.5; 0.5]%float] = 2%nat.
Proof. reflexivity. Qed.

(** tests/test_one_of.py, [test_len_and_flatten]: [len(p) == 5]. *)
Example test_len_and_flatten :
  let p1 := OneOfT (new_RandomState 0) [X; Y] [0.25; 0.75]%float in
  let p2 := OneOfT (new_RandomState 0) [Y; Y] [0.5; 0.5]%float in
  len (OneOfT (new_RandomState 0) [p1; p2; X] [0.25; 0.5; 0.25]%float) = 5%nat.
Proof. reflexivity. Qed.

(** tests/test_one_of.py, [test_normalize_weights] and [test_no_weights_arg]. *)
Example test_normalize_weights :
  normalize_probabilities [1; 2; 1]%float = [0.25; 0.5; 0.25]%float ∧
  is_Ok (OneOf_init [X; Y; X] (Some [1; 2; 1]%float) None (new_RandomState 0)) = true ∧
  is_Ok (OneOf_init [X; Y; X] (Some [1; 2]%float) None (new_RandomState 0)) = false.
Proof. repeat split; vm_compute; reflexivity. Qed.

(** tests/test_one_of.py, [test_inverse]: a [OneOf] of two [OneOf]s is
    inverted through both levels, and a [OneOf] of candidates that are not
    invertible raises a [RuntimeError] on inversion. *)
Example test_inverse_nested_OneOf :
  let ws := normalize_probabilities [1; 1]%float in
  let p := OneOfT (new_RandomState 1)
             [OneOfT (new_RandomState 2) [InvA 1 KEYS; InvB 2 KEYS] ws;
              OneOfT (new_RandomState 3) [InvB 3 KEYS; InvA 4 KEYS] ws] ws in
  let fwd := call p 0 [PMap data_xy] in
  ∃ out, fwd.2 = Ok out ∧
    ∃ out', (inverse fwd.1.1 NotPassed out fwd.1.2).2 = Ok out' ∧
      deref (inverse fwd.1.1 NotPassed out fwd.1.2).1 out' = PMap data_xy_inverted.
Proof.
  intros ws p fwd.
  exists 1%nat. split; [vm_compute; reflexivity|].
  exists 2%nat. split; vm_compute; reflexivity.
Qed.

Example test_inverse_NonInv :
  let p := OneOfT (new_RandomState 1) [NonInv KEYS; NonInv KEYS]
             (normalize_probabilities [1; 1]%float) in
  let fwd := call p 0 [PMap data_xy] in
  fwd.2 = Ok 1%nat ∧
  (inverse fwd.1.1 NotPassed 1 fwd.1.2).2 = Raise nothing_applied.
Proof. split; vm_compute; reflexivity. Qed.

(** With parent seed 2097125 the second and the fourth draw of the sequencer
    are the same number, so the second and the fourth of four Randomizable
    members are handed the same seed and end with the same generator, where
    C3 says that siblings get distinct seeds. *)
Lemma sibling_seeds_collide :
  let e := new_RandomState 0 in
  let ts := [Rand e; Rand e; Rand e; Rand e] in
  let after := (Compose_set_random_state ts (Some 2097125%Z) None e).2 in
  child_seeds (new_RandomState 2097125) ts
    = [1852692098; 2225052865; 3308908905; 2225052865]%Z ∧
  after !! 1%nat = Some (Rand (new_RandomState 2225052865)) ∧
  after !! 3%nat = Some (Rand (new_RandomState 2225052865)).
Proof.
  intros e ts after.
  assert (Hseeds : child_seeds (new_RandomState 2097125) ts
                   = [1852692098; 2225052865; 3308908905; 2225052865]%Z)
    by (vm_compute; reflexivity).
  split; [exact Hseeds|].
  assert (Hafter : after = assign_seeds ts (child_seeds (new_RandomState 2097125) ts)).
  { unfold after, Compose_set_random_state.
    change (Randomizable_set_random_state (Some 2097125%Z) None e)
      with (new_RandomState 2097125).
    by rewrite reseed_members_draws. }
  rewrite Hafter, Hseeds. split; reflexivity.
Qed.

Lemma KEYS_of_data_xy : keys_of_record KEYS data_xy.
Proof.
  split; [compute_done|]. split.
  - intros k' Hin. assert (Hlen : (String.length (trace_key k') ≤ 1)%nat).
    { apply elem_of_cons in Hin as [->|Hin]; [simpl; lia|].
      apply elem_of_cons in Hin as [->|Hin]; [simpl; lia|]. by apply elem_of_nil in Hin. }
    unfold trace_key in Hlen. rewrite string_length_app in Hlen. simpl in Hlen. lia.
  - intros k Hin.
    apply elem_of_cons in Hin as [->|Hin]; [by exists 10%float|].
    apply elem_of_cons in Hin as [->|Hin]; [by exists 20%float|]. by apply elem_of_nil in Hin.
Qed.

(** A witness of C3: two pipelines with the same member and different
    generators before the call. *)
Lemma Compose_set_random_state_witness :
  same_members [Rand (new_RandomState 1)] [Rand (new_RandomState 2)] ∧
  Compose_set_random_state [Rand (new_RandomState 1)] (Some 7%Z) None (new_RandomState 3)
    = Compose_set_random_state [Rand (new_RandomState 2)] (Some 7%Z) None (new_RandomState 4).
Proof.
  split; [reflexivity|].
  destruct Compose_set_random_state_child_seeds as (_ & _ & _ & Hsame).
  apply Hsame. reflexivity.
Defined.

(** A witness of C6: inverting the scalar [1.0]. *)
Lemma Compose_inverse_requires_mapping_witness :
  is_Mapping (deref [PFloat 1] 0) = false ∧
  Compose_inverse [InvA 1 KEYS; InvB 2 KEYS] None 0 [PFloat 1] = ([PFloat 1], Raise not_a_mapping).
Proof.
  split; [reflexivity|].
  destruct Compose_inverse_requires_mapping as (Hnot & _). apply Hnot. reflexivity.
Defined.

(** A witness of C9: a member that takes no data between two that do. *)
Lemma Compose_randomize_witness :
  let e := new_RandomState 0 in
  is_Randomizable (RandNoData e) = true ∧
  randomize (RandNoData e) PNone = (RandNoData e, [], Some (TypeError takes_no_data)) ∧
  Compose_randomize ([Rand e] ++ RandNoData e :: [Rand e]) PNone =
    match Compose_randomize [Rand e] PNone with
    | (ts1', w1, None) =>
        let '(ts2', w2, r) := Compose_randomize [Rand e] PNone in
        (ts1' ++ RandNoData e :: ts2',
         w1 ++ [] ++ not_randomized (type_name (RandNoData e)) takes_no_data :: w2, r)
    | (ts1', w1, Some err) => (ts1' ++ RandNoData e :: [Rand e], w1, Some err)
    end.
Proof.
  intros e. split; [reflexivity|]. split; [reflexivity|].
  destruct Compose_randomize_tolerates_TypeError as (Hstep & _).
  apply Hstep; reflexivity.
Defined.

(** tests/test_one_of.py, [test_inverse] with [InvB] drawn, as a witness of
    C1. *)
Lemma OneOf_inverse_witness :
  let ts := [InvA 1 KEYS; InvB 2 KEYS] in
  let h := [PMap data_xy] in
  let c := call (InvB 2 KEYS) 0 h in
  let d := match deref c.1.2 1 with PMap d => d | _ => ∅ end in
  ts !! 1%nat = Some (InvB 2 KEYS) ∧
  call (InvB 2 KEYS) 0 h = (InvB 2 KEYS, c.1.2, Ok 1%nat) ∧
  is_Mapping (deref h 0) = true ∧
  deref c.1.2 1 = PMap d ∧
  Exists (touched d) (map_to_list d).*1 ∧
  inverse (OneOfT (new_RandomState 0) (<[1%nat := InvB 2 KEYS]> ts) [0.5; 0.5]%float) NotPassed 1
      (<[1%nat := PMap (OneOf_push 1 d)]> c.1.2)
    = if is_Invertible (InvB 2 KEYS) then inverse (InvB 2 KEYS) NotPassed 1 c.1.2
      else (c.1.2, Raise not_invertible).
Proof.
  intros ts h c d.
  assert (Hcall : call (InvB 2 KEYS) 0 h = (InvB 2 KEYS, c.1.2, Ok 1%nat)).
  { apply triple_eq; [reflexivity|reflexivity|vm_compute; reflexivity]. }
  assert (Hd : deref c.1.2 1 = PMap d) by (vm_compute; reflexivity).
  assert (Htouched : Exists (touched d) (map_to_list d).*1).
  { apply Exists_exists. exists "x". split.
    - apply elem_of_keys. exists (VFloat 110). vm_compute. reflexivity.
    - exists [TraceEntry "InvB" 2 ∅]. vm_compute. reflexivity. }
  split; [reflexivity|]. split; [exact Hcall|]. split; [reflexivity|].
  split; [exact Hd|]. split; [exact Htouched|].
  destruct OneOf_inverse_replays_selected_branch as (_ & Hreplay & _).
  destruct (Hreplay ts 1%nat (InvB 2 KEYS) 0%nat h (InvB 2 KEYS) c.1.2 1%nat d
              eq_refl Hcall eq_refl Hd Htouched) as (_ & _ & Hinv).
  apply Hinv.
Defined.

(** [Compose([InvA(KEYS), InvB(KEYS)])] is one invertible transform, and one
    application of it to [{"x": 10.0, "y": 20.0}] leaves two trace entries
    for the key ["x"], which had none, where C2 says one; an empty
    [Compose], invertible as well, leaves none. *)
Lemma Compose_pushes_two_entries :
  let p := ComposeT (new_RandomState 0) [InvA 1 KEYS; InvB 2 KEYS] in
  let c := call p 0 [PMap data_xy] in
  let empty := call (ComposeT (new_RandomState 0) []) 0 [PMap data_xy] in
  is_Invertible p = true ∧
  traces data_xy "x" = [] ∧
  c.2 = Ok 2 ∧
  match deref c.1.2 2 with PMap d' => traces d' "x" | _ => [] end
    = [TraceEntry "InvA" 1 ∅; TraceEntry "InvB" 2 ∅] ∧
  is_Invertible (ComposeT (new_RandomState 0) []) = true ∧
  empty.1.2 = [PMap data_xy] ∧ empty.2 = Ok 0.
Proof.
  intros p c empty.
  split; [reflexivity|]. split; [reflexivity|]. split; [vm_compute; reflexivity|].
  split; [vm_compute; reflexivity|]. split; [reflexivity|].
  split; reflexivity.
Qed.

(** A witness of C2, after tests/test_inverse.py (lines 200-203): a record
    that [InvA(KEYS)] has been applied to is handed to a new [InvA(KEYS)],
    another object of the same class, and the inversion raises. *)
Lemma trace_stack_discipline_witness :
  keys_of_record KEYS data_xy ∧ KEYS ≠ [] ∧ ¬ ("InvA" = "InvA" ∧ 2 = 1) ∧
  ∃ d',
    leaf_call (Inv "InvA" 1 (λ x, x + 1)%float (λ x, x - 1)%float KEYS) None (PMap data_xy)
      = (None, (PMap data_xy, Ok (Some (PMap d')))) ∧
    leaf_inverse (Inv "InvA" 2 (λ x, x + 1)%float (λ x, x - 1)%float KEYS) NotPassed (PMap d')
      = (PMap d', Raise out_of_order).
Proof.
  assert (Hne : KEYS ≠ []) by done.
  assert (Hother : ¬ ("InvA" = "InvA" ∧ 2 = 1)) by (by intros [_ ?]).
  split; [exact KEYS_of_data_xy|]. split; [exact Hne|]. split; [exact Hother|].
  destruct trace_stack_discipline as (_ & _ & _ & _ & _ & _ & _ & _ & _ & Hnew & _).
  exact (Hnew "InvA" 1 "InvA" 2 _ _ _ _ KEYS data_xy KEYS_of_data_xy Hne Hother).
Defined.

(** A witness of C10: two members with a generator of seed 5 and one
    without; after the construction with seed 0 the last member holds the
    generator of the second draw of [RandomState(0)]. *)
Lemma Compose_init_reseeds_members_witness :
  let before := new_RandomState 5 in
  let ts := [Rand before; X; Rand before] in
  ∃ R' ts' l',
    Compose_init (ArgSeq ts) (Some 0%Z) before = ComposeT R' ts' ∧
    ts' !! 1%nat = Some X ∧
    ts' !! 2%nat = Some (Leaf l') ∧
    leaf_R l' = Some (new_RandomState 2546248239).
Proof.
  intros before ts.
  destruct (Compose_init_reseeds_members (ArgSeq ts) (Some 0%Z) before)
    as (Hinit & _ & _ & Hplain & _ & _ & Hleaf & _).
  destruct (Hleaf 2%nat _ eq_refl eq_refl) as (seed & l' & Hseed & Hl' & HR & _).
  assert (Hs : child_seeds (Randomizable_set_random_state (Some 0%Z) None before)
                 (ensure_tuple (ArgSeq ts)) !! rank (ensure_tuple (ArgSeq ts)) 2
               = Some 2546248239%Z) by (vm_compute; reflexivity).
  rewrite Hs in Hseed. injection Hseed as <-.
  eexists _, _, l'. split; [exact Hinit|]. split; [|split; [exact Hl'|exact HR]].
  apply (Hplain 1%nat X); reflexivity.
Defined.

End Examples.

(** * Further properties of the sequencer *)

Section MoreProperties.
Context `{G : NumpyRandom}.

(** ** Nested pipelines *)

Lemma Compose_call_length ts x h : length (Compose_call ts x h).1.1 = length ts.
Proof.
  revert x h. induction ts as [|t ts IH]; intros x h; [done|].
  rewrite Compose_call_cons.
  destruct (apply_transform t x h) as [[t' h1] [y|e]]; [|done].
  specialize (IH y h1). destruct (Compose_call ts y h1) as [[ts' h2] r]. simpl in *.
  by rewrite IH.
Qed.

Lemma apply_transform_ComposeT R ts x h :
  apply_transform (ComposeT R ts) x h =
    let '(ts', h', r) := Compose_call ts x h in (ComposeT R ts', h', r).
Proof. reflexivity. Qed.

(** X1: a pipeline whose first member is a nested [Compose] gives the same
    heap and the same outcome as the pipeline with that member unrolled, and
    the members after the call are the same, still grouped. *)
Theorem Compose_call_nested R ts1 ts2 x h :
  let '(nested, h1, r1) := Compose_call (ComposeT R ts1 :: ts2) x h in
  let '(flat, h2, r2) := Compose_call (ts1 ++ ts2) x h in
  h1 = h2 ∧ r1 = r2 ∧
  nested = ComposeT R (take (length ts1) flat) :: drop (length ts1) flat.
Proof.
  rewrite Compose_call_cons, apply_transform_ComposeT, Compose_call_app.
  pose proof (Compose_call_length ts1 x h) as Hlen.
  destruct (Compose_call ts1 x h) as [[ts1' h1] [y|e]]; simpl in Hlen.
  - destruct (Compose_call ts2 y h1) as [[ts2' h2] r2].
    by rewrite <- Hlen, take_app_length, drop_app_length.
  - by rewrite <- Hlen, take_app_length, drop_app_length.
Qed.

(** ** Seeding changes generators only *)

Lemma strip_reseed_members R ts :
  Forall (λ t, is_Randomizable t = true → ∀ s, strip (reseed t s) = strip t) ts →
  map strip (reseed_members R ts).2 = map strip ts.
Proof.
  intros Hts. revert R. induction Hts as [|t ts Ht _ IH]; intros R; [done|].
  rewrite reseed_members_cons. destruct (is_Randomizable t) eqn:Hr.
  - destruct (randint_uint32 R) as [s R1]. specialize (IH R1).
    destruct (reseed_members R1 ts) as [R2 ts']. simpl in *. by rewrite IH, Ht.
  - specialize (IH R). destruct (reseed_members R ts) as [R2 ts']. simpl in *.
    by rewrite IH.
Qed.

Lemma strip_reseed t s : is_Randomizable t = true → strip (reseed t s) = strip t.
Proof.
  revert s. induction t as [l|R ts IH|R ts ws IH] using transform_ind; intros s Hr.
  - destruct l as [name inv [R|] c i r]; done.
  - simpl. fold (reseed_members (new_RandomState s) ts).
    pose proof (strip_reseed_members (new_RandomState s) ts) as Hm.
    destruct (reseed_members (new_RandomState s) ts) as [R' ts']. simpl in *.
    rewrite Hm; [done|]. eapply Forall_impl; [exact IH|]. naive_solver.
  - simpl. fold (reseed_members (new_RandomState s) ts).
    pose proof (strip_reseed_members (new_RandomState s) ts) as Hm.
    destruct (reseed_members (new_RandomState s) ts) as [R' ts']. simpl in *.
    rewrite Hm; [done|]. eapply Forall_impl; [exact IH|]. naive_solver.
Qed.

Lemma same_members_after_seeding ts seed state entropy :
  same_members (Compose_set_random_state ts seed state entropy).2 ts.
Proof.
  apply strip_reseed_members, Forall_forall. intros t _ Hr s. by apply strip_reseed.
Qed.

Lemma len_strip t : len (strip t) = len t.
Proof.
  induction t as [l|R ts IH|R ts ws IH] using transform_ind; [done| |].
  - simpl. induction IH as [|t ts Ht _ IHts]; [done|].
    simpl. rewrite IHts, Ht. by destruct t.
  - simpl. induction IH as [|t ts Ht _ IHts]; [done|].
    simpl. rewrite IHts, Ht. by destruct t.
Qed.

Lemma Compose_len_same_members ts ts' :
  same_members ts ts' → Compose_len ts = Compose_len ts'.
Proof.
  unfold same_members. revert ts'. induction ts as [|t ts IH]; intros [|t' ts'] Heq;
    try done.
  injection Heq as Ht Hts. rewrite !Compose_len_cons, (IH ts' Hts).
  f_equal. rewrite <- (len_strip t), <- (len_strip t'), Ht.
  by destruct t, t'.
Qed.

(** X2: [Compose.set_random_state] changes nothing but generators: the
    members after it are the members before it up to their generators, in the
    same number and with the same [len]; so seeding with [s] wipes out every
    earlier seeding: the pipeline ends in the same state as if it had been
    seeded with [s] only. *)
Theorem Compose_set_random_state_resets ts seed state entropy :
  let after := (Compose_set_random_state ts seed state entropy).2 in
  same_members after ts ∧
  length after = length ts ∧
  Compose_len after = Compose_len ts ∧
  (∀ s state' entropy' state'' entropy'',
     Compose_set_random_state after (Some s) state' entropy'
       = Compose_set_random_state ts (Some s) state'' entropy'').
Proof.
  intros after. pose proof (same_members_after_seeding ts seed state entropy) as Hsame.
  fold after in Hsame. split; [done|]. split.
  { apply (f_equal length) in Hsame. by rewrite !length_map in Hsame. }
  split; [by apply Compose_len_same_members|].
  intros s state' entropy' state'' entropy''.
  unfold Compose_set_random_state. simpl. by apply reseed_members_same.
Qed.

(** ** Randomization leaves the other members alone *)

Lemma Compose_randomize_length ts data :
  length (Compose_randomize ts data).1.1 = length ts.
Proof.
  induction ts as [|t ts IH]; [done|].
  rewrite Compose_randomize_cons.
  destruct (Compose_randomize ts data) as [[ts' w'] r']. simpl in IH.
  destruct (is_Randomizable t); [|by simpl; rewrite IH].
  destruct (randomize t data) as [[t' w] [e|]]; [|by simpl; rewrite IH].
  destruct e; simpl; by rewrite ?IH.
Qed.

Lemma Compose_randomize_not_Randomizable ts data i t :
  ts !! i = Some t → is_Randomizable t = false →
  (Compose_randomize ts data).1.1 !! i = Some t.
Proof.
  revert i. induction ts as [|t0 ts IH]; intros i Hi Ht; [done|].
  rewrite Compose_randomize_cons.
  destruct i as [|i]; simpl in Hi.
  - injection Hi as ->. rewrite Ht.
    by destruct (Compose_randomize ts data) as [[ts' w'] r'].
  - specialize (IH i Hi Ht).
    destruct (Compose_randomize ts data) as [[ts' w'] r']. simpl in IH.
    destruct (is_Randomizable t0); [|done].
    destruct (randomize t0 data) as [[t' w] [e|]]; [|done].
    by destruct e.
Qed.

Lemma Compose_randomize_nothing ts data :
  Forall (λ t, is_Randomizable t = false) ts →
  Compose_randomize ts data = (ts, [], None).
Proof.
  induction 1 as [|t ts Ht _ IH]; [done|].
  by rewrite Compose_randomize_cons, Ht, IH.
Qed.

(** X3: [Compose.randomize] keeps the number of members and leaves every
    member that is not Randomizable exactly as it was, at its place, whether
    the call returns or raises; on a pipeline without Randomizable members it
    does nothing at all. *)
Theorem Compose_randomize_frame ts data :
  length (Compose_randomize ts data).1.1 = length ts ∧
  (∀ i t, ts !! i = Some t → is_Randomizable t = false →
          (Compose_randomize ts data).1.1 !! i = Some t) ∧
  (Forall (λ t, is_Randomizable t = false) ts →
   Compose_randomize ts data = (ts, [], None)).
Proof.
  split; [apply Compose_randomize_length|].
  split; [apply Compose_randomize_not_Randomizable|apply Compose_randomize_nothing].
Qed.

(** X4: only a [TypeError] is tolerated.  Any other exception of a member's
    [randomize] ends [Compose.randomize] with that exception: the members
    before it have been randomized, the warnings issued so far are kept, and
    the members after it are not touched. *)
Theorem Compose_randomize_propagates ts1 t ts2 data t' w e :
  is_Randomizable t = true →
  randomize t data = (t', w, Some e) →
  is_TypeError (Some e) = false →
  (Compose_randomize ts1 data).2 = None →
  Compose_randomize (ts1 ++ t :: ts2) data =
    ((Compose_randomize ts1 data).1.1 ++ t' :: ts2,
     (Compose_randomize ts1 data).1.2 ++ w, Some e).
Proof.
  intros Hr Ht He H1. rewrite Compose_randomize_app, Compose_randomize_cons, Hr, Ht.
  destruct (Compose_randomize ts1 data) as [[ts1' w1] r1]. simpl in *. subst r1.
  by destruct e.
Qed.

End MoreProperties.

(** ** The order of binary64 numbers *)

Section FloatOrder.

(** Comparing the other way round gives the opposite answer. *)
Lemma SFcompare_antisym x y : SFcompare y x = option_map CompOpp (SFcompare x y).
Proof.
  destruct x as [sx|sx| |sx mx ex], y as [sy|sy| |sy my ey]; simpl; try done;
    try (by destruct sx, sy); try (by destruct sx); try (by destruct sy).
  destruct sx, sy; try done; rewrite (Z.compare_antisym ex ey);
    destruct (ex ?= ey)%Z; simpl; try done; f_equal.
  all: rewrite ?Pos.compare_cont_antisym; reflexivity.
Qed.

Lemma SFcompare_None x y : SFcompare x y = None → x = S754_nan ∨ y = S754_nan.
Proof.
  destruct x as [sx|sx| |sx mx ex], y as [sy|sy| |sy my ey]; simpl; try done; auto.
Qed.

Lemma is_nan_Prim2SF x : is_nan x = false → Prim2SF x ≠ S754_nan.
Proof.
  unfold is_nan. rewrite FloatAxioms.eqb_spec. intros Hx Hnan. by rewrite Hnan in Hx.
Qed.

(** Away from NaN, [c <= x] is the negation of [x < c]. *)
Lemma leb_negb_ltb x c :
  is_nan x = false → is_nan c = false → (c <=? x)%float = negb (x <? c)%float.
Proof.
  intros Hx%is_nan_Prim2SF Hc%is_nan_Prim2SF.
  rewrite FloatAxioms.leb_spec, FloatAxioms.ltb_spec. unfold SFleb, SFltb.
  rewrite (SFcompare_antisym (Prim2SF x) (Prim2SF c)).
  destruct (SFcompare (Prim2SF x) (Prim2SF c)) as [[| |]|] eqn:Hcmp; try done.
  by apply SFcompare_None in Hcmp as [?|?].
Qed.

(** A draw below [val_frac] is below [val_frac + test_frac]. *)
Lemma ltb_val_frac x :
  (x <? val_frac)%float = true → (x <? val_frac + test_frac)%float = true.
Proof.
  rewrite !FloatAxioms.ltb_spec.
  change (Prim2SF val_frac) with (S754_finite false 7205759403792794 (-56)).
  change (Prim2SF (val_frac + test_frac)) with (S754_finite false 7205759403792794 (-55)).
  destruct (Prim2SF x) as [s|s| |s m e]; try done.
  unfold SFltb, SFcompare. destruct s; [done|].
  destruct (Z.compare_spec e (-56)), (Z.compare_spec e (-55)); try done; lia.
Qed.

End FloatOrder.

(** ** The MedNIST data list *)

Section MedNISTProperties.
Context `{G : NumpyRandom} {F : NumpyRandomFloat G}.

Lemma extend_classes_eq i image_files fl cl :
  extend_classes i image_files fl cl =
    (fl ++ concat image_files, cl ++ class_labels i image_files).
Proof.
  revert i fl cl. induction image_files as [|fs rest IH]; intros i fl cl; simpl.
  - by rewrite !app_nil_r.
  - by rewrite IH, <- !app_assoc.
Qed.

Lemma class_labels_length i image_files :
  length (class_labels i image_files) = length (concat image_files).
Proof.
  revert i. induction image_files as [|fs rest IH]; intros i; simpl; [done|].
  by rewrite !length_app, length_replicate, IH.
Qed.

Lemma all_items_eq image_files :
  all_items image_files = zip_with Item (concat image_files) (class_labels 0 image_files).
Proof. unfold all_items. by rewrite extend_classes_eq. Qed.

Lemma all_items_length image_files :
  length (all_items image_files) = length (concat image_files).
Proof.
  rewrite all_items_eq, length_zip_with, class_labels_length. lia.
Qed.

Lemma filter_label_replicate fs i c :
  image <$> filter (λ it, label it = c) (zip_with Item fs (replicate (length fs) i)) =
    if decide (i = c) then fs else [].
Proof.
  induction fs as [|f fs IH]; [by destruct (decide (i = c))|].
  cbn [length replicate zip_with]. rewrite filter_cons. cbn [label].
  destruct (decide (i = c)) as [Heq|Hne].
  - by rewrite fmap_cons, IH.
  - done.
Qed.

Lemma filter_label_from i c rest :
  image <$> filter (λ it, label it = c) (zip_with Item (concat rest) (class_labels i rest)) =
    if decide (i ≤ c) then default [] (rest !! (c - i)) else [].
Proof.
  revert i. induction rest as [|fs rest IH]; intros i.
  { simpl. by case_decide. }
  cbn [concat class_labels].
  rewrite zip_with_app by by rewrite length_replicate.
  rewrite filter_app, fmap_app, IH, filter_label_replicate.
  destruct (decide (i = c)) as [->|Hne].
  - rewrite Nat.sub_diag, decide_False, decide_True by lia. simpl. by rewrite app_nil_r.
  - destruct (decide (i ≤ c)).
    + rewrite decide_True by lia. replace (c - i) with (S (c - S i)) by lia. done.
    + rewrite decide_False by lia. done.
Qed.

(** X6: the first loop of [_generate_data_list] lists the images class by
    class, in the order of the folder listings, and labels each one with
    the index of its class: the images that carry label [c] are exactly the
    images of class folder [c], in listing order (none for a [c] that is not
    a class). *)
Theorem image_class_labels_the_folder image_files :
  image <$> all_items image_files = concat image_files ∧
  label <$> all_items image_files = class_labels 0 image_files ∧
  (∀ c, image <$> filter (λ it, label it = c) (all_items image_files) =
        default [] (image_files !! c)).
Proof.
  rewrite all_items_eq. split; [|split].
  - apply fmap_zip_with_l; [done|]. by rewrite class_labels_length.
  - apply fmap_zip_with_r; [done|]. by rewrite class_labels_length.
  - intros c. rewrite filter_label_from, decide_True by lia. by rewrite Nat.sub_0_r.
Qed.

(** *** The split *)

Lemma samples_S n R :
  samples (S n) R =
    ((random_sample R).1 :: (samples n (random_sample R).2).1,
     (samples n (random_sample R).2).2).
Proof.
  simpl. destruct (random_sample R) as [x R1]. simpl.
  by destruct (samples n R1) as [xs R2].
Qed.

Lemma samples_length n R : length (samples n R).1 = n.
Proof.
  revert R. induction n as [|n IH]; intros R; [done|].
  rewrite samples_S. simpl. by rewrite IH.
Qed.

Lemma select_nil_r keep items : select keep items [] = [].
Proof. by destruct items. Qed.

Lemma select_sublist keep items xs : sublist (select keep items xs) items.
Proof.
  revert xs. induction items as [|it items IH]; intros xs; [by simpl|].
  destruct xs as [|x xs]; simpl; [apply sublist_nil_l|].
  destruct (keep x); [by apply sublist_skip|by apply sublist_cons].
Qed.

Lemma select_ext keep keep' items xs :
  Forall (λ x, keep x = keep' x) xs → select keep items xs = select keep' items xs.
Proof.
  intros Hxs. revert items. induction Hxs as [|x xs Hx _ IH]; intros items.
  - by rewrite !select_nil_r.
  - destruct items as [|it items]; [done|]. simpl. by rewrite Hx, IH.
Qed.

Lemma elem_of_sections section :
  section ∈ ["training"; "validation"; "test"] ↔
  section = "training" ∨ section = "validation" ∨ section = "test".
Proof. rewrite !elem_of_cons, elem_of_nil. tauto. Qed.

Lemma skip_valid section x :
  section ∈ ["training"; "validation"; "test"] → ∃ b, skip section x = Some b.
Proof.
  intros Hin%elem_of_sections. unfold skip. repeat case_decide; eauto.
  exfalso. tauto.
Qed.

Lemma split_loop_seq section fl cl m k R data :
  section ∈ ["training"; "validation"; "test"] →
  length fl = k + m → length cl = k + m →
  split_loop section fl cl (seq k m) R data =
    ((samples m R).2,
     Return (data ++ select (λ x, bool_decide (skip section x = Some false))
                            (drop k (zip_with Item fl cl)) (samples m R).1)).
Proof.
  intros Hsec. revert k R data. induction m as [|m IH]; intros k R data Hfl Hcl.
  { simpl. by rewrite select_nil_r, app_nil_r. }
  rewrite samples_S. cbn [seq split_loop]. unfold MedNISTDataset_randomize.
  destruct (random_sample R) as [x R1]. cbn [fst snd].
  destruct (lookup_lt_is_Some_2 fl k) as [f Hf]; [lia|].
  destruct (lookup_lt_is_Some_2 cl k) as [c Hc]; [lia|].
  assert (Hit : zip_with Item fl cl !! k = Some (Item f c)).
  { rewrite lookup_zip_with, Hf. simpl. by rewrite Hc. }
  rewrite (drop_S _ _ _ Hit). cbn [select].
  destruct (skip_valid section x Hsec) as [[|] Hskip]; rewrite Hskip.
  - rewrite bool_decide_eq_false_2 by done. apply IH; lia.
  - rewrite bool_decide_eq_true_2 by done. rewrite Hf, Hc.
    rewrite IH by lia. by rewrite <- app_assoc.
Qed.

Lemma generate_data_list_select image_files section R :
  section ∈ ["training"; "validation"; "test"] →
  let n := length (concat image_files) in
  _generate_data_list image_files section R =
    ((samples n R).2,
     Return (select (λ x, bool_decide (skip section x = Some false))
                    (all_items image_files) (samples n R).1)).
Proof.
  intros Hsec n. unfold _generate_data_list. rewrite all_items_eq, extend_classes_eq.
  cbn [app]. rewrite class_labels_length.
  rewrite split_loop_seq; [done|done|done|].
  by rewrite class_labels_length.
Qed.

(** X7: for each of the three section names [_generate_data_list] returns:
    it raises neither the [ValueError] nor an [IndexError], it draws exactly
    one float per image, whether the image is kept or not, and the items it
    returns are a subsequence of all the items, in listing order. *)
Theorem generate_data_list_returns image_files section R :
  section ∈ ["training"; "validation"; "test"] →
  ∃ data,
    _generate_data_list image_files section R =
      ((samples (length (all_items image_files)) R).2, Return data) ∧
    sublist data (all_items image_files).
Proof.
  intros Hsec. rewrite all_items_length. eexists. split.
  - by apply generate_data_list_select.
  - apply select_sublist.
Qed.

Lemma val_frac_not_nan : is_nan val_frac = false.
Proof. reflexivity. Qed.

Lemma sum_frac_not_nan : is_nan (val_frac + test_frac) = false.
Proof. reflexivity. Qed.

Lemma append_in_range section x :
  section ∈ ["training"; "validation"; "test"] →
  is_nan x = false →
  bool_decide (skip section x = Some false) = in_range section x.
Proof.
  intros Hsec%elem_of_sections Hx. unfold skip, in_range.
  rewrite !(leb_negb_ltb x) by (done || reflexivity).
  destruct Hsec as [-> | [-> | ->]];
    by destruct (x <? val_frac)%float, (x <? val_frac + test_frac)%float.
Qed.

Lemma select_in_range image_files section R :
  section ∈ ["training"; "validation"; "test"] →
  Forall (λ x, is_nan x = false) (samples (length (all_items image_files)) R).1 →
  (_generate_data_list image_files section R).2 =
    Return (select (in_range section) (all_items image_files)
                   (samples (length (all_items image_files)) R).1).
Proof.
  intros Hsec Hnan. rewrite all_items_length in *.
  rewrite generate_data_list_select by done. cbn [snd]. f_equal.
  apply select_ext. eapply Forall_impl; [done|].
  intros x Hx. by apply append_in_range.
Qed.

(** X8: when no draw is NaN, the items of a section are the images whose
    draw lies in the range of the section: from [val_frac + test_frac] on
    for training, below [val_frac] for validation, from [val_frac] to below
    [val_frac + test_frac] for test. *)
Theorem generate_data_list_by_range image_files section R :
  section ∈ ["training"; "validation"; "test"] →
  Forall (λ x, is_nan x = false) (samples (length (all_items image_files)) R).1 →
  (_generate_data_list image_files section R).2 =
    Return (select (in_range section) (all_items image_files)
                   (samples (length (all_items image_files)) R).1).
Proof. apply select_in_range. Qed.

Lemma select_partition items xs :
  length xs = length items →
  Forall (λ x, is_nan x = false) xs →
  select (in_range "training") items xs ++ select (in_range "validation") items xs ++
    select (in_range "test") items xs ≡ₚ items.
Proof.
  revert xs. induction items as [|it items IH]; intros xs Hlen Hnan; [done|].
  destruct xs as [|x xs]; [done|]. apply Forall_cons in Hnan as [Hx Hnan].
  specialize (IH xs ltac:(by injection Hlen) Hnan).
  cbn [select].
  change (in_range "training" x) with (val_frac + test_frac <=? x)%float.
  change (in_range "validation" x) with (x <? val_frac)%float.
  change (in_range "test" x)
    with ((val_frac <=? x)%float && (x <? val_frac + test_frac)%float).
  rewrite !(leb_negb_ltb x) by (done || reflexivity).
  pose proof (ltb_val_frac x) as Hlt.
  destruct (x <? val_frac)%float, (x <? val_frac + test_frac)%float;
    cbn [negb andb]; try (by discriminate Hlt).
  - rewrite <- app_comm_cons, <- Permutation_middle. by constructor.
  - rewrite app_assoc, <- Permutation_middle, <- app_assoc. by constructor.
  - rewrite <- app_comm_cons. by constructor.
Qed.

(** X9: started on the same generator, the three sections deal the images
    out: when no draw is NaN, every image is in exactly one of training,
    validation and test, so the three lists together are a rearrangement of
    all the items. *)
Theorem sections_partition image_files R :
  Forall (λ x, is_nan x = false) (samples (length (all_items image_files)) R).1 →
  ∃ training validation test,
    (_generate_data_list image_files "training" R).2 = Return training ∧
    (_generate_data_list image_files "validation" R).2 = Return validation ∧
    (_generate_data_list image_files "test" R).2 = Return test ∧
    training ++ validation ++ test ≡ₚ all_items image_files.
Proof.
  intros Hnan. do 3 eexists.
  split; [apply select_in_range; [apply elem_of_sections; tauto|done]|].
  split; [apply select_in_range; [apply elem_of_sections; tauto|done]|].
  split; [apply select_in_range; [apply elem_of_sections; tauto|done]|].
  apply select_partition; [|done]. by rewrite samples_length.
Qed.

Lemma skip_invalid section x :
  section ∉ ["training"; "validation"; "test"] → skip section x = None.
Proof.
  intros Hsec. unfold skip.
  repeat case_decide; try done; exfalso; apply Hsec, elem_of_sections; tauto.
Qed.

(** X10: a section name other than the three is noticed inside the loop
    only: with no image at all the call returns the empty list and leaves
    the generator as it was, and otherwise it raises the [ValueError] at the
    first image, after one draw. *)
Theorem section_name_checked_in_the_loop image_files section R :
  section ∉ ["training"; "validation"; "test"] →
  _generate_data_list image_files section R =
    if decide (concat image_files = []) then (R, Return [])
    else ((MedNISTDataset_randomize R).2, Throw (ValueError section_name_error)).
Proof.
  intros Hsec. unfold _generate_data_list. rewrite extend_classes_eq. cbn [app].
  rewrite class_labels_length.
  destruct (concat image_files) as [|f fl]; [done|].
  rewrite decide_False by done. cbn [length seq split_loop].
  destruct (MedNISTDataset_randomize R) as [x R1].
  by rewrite skip_invalid.
Qed.

End MedNISTProperties.

(** ** The round trip of the invertible transform of the tests *)

Section RoundTrip.
Context `{G : NumpyRandom}.

(** What [Inv.inverse] leaves under each key, on a record whose keys all
    have an entry of the object on top. *)
Lemma Inv_inverse_loop_lookup cls self inv_fn keys d :
  keys_of_record keys d →
  (∀ k, k ∈ keys → ∃ e, last (traces d k) = Some e ∧ pushed_by cls self e) →
  ∃ d2, Inv_inverse_loop cls self inv_fn keys d = Ok d2 ∧
    (∀ k, k ∈ keys → ∃ x, d !! k = Some (VFloat x) ∧
                          d2 !! k = Some (VFloat (inv_fn x)) ∧
                          d2 !! trace_key k = Some (VTrace (removelast (traces d k)))) ∧
    (∀ k, k ∉ keys → (∀ k', k' ∈ keys → k ≠ trace_key k') → d2 !! k = d !! k).
Proof.
  revert d. induction keys as [|key keys IH]; intros d Hkeys Htop.
  { exists d. split; [done|]. split; [by intros k ?%elem_of_nil|done]. }
  pose proof Hkeys as Hkeys0.
  apply keys_of_record_cons in Hkeys as (Hnin & Hnt & [x Hx] & Hrest).
  simpl. rewrite Hx.
  destruct (Htop key) as (e & Hlast & Hcls); [left|].
  set (d0 := <[key:=VFloat (inv_fn x)]> d).
  assert (Htr0 : ∀ k, traces d0 k = traces d k).
  { intros k. apply traces_insert_ne, Hnt. }
  rewrite (pop_transform_top cls self d0 key e) by by rewrite ?Htr0.
  rewrite Htr0.
  set (d1 := <[trace_key key:=VTrace (removelast (traces d key))]> d0).
  assert (Hd1 : ∀ k, k ≠ key → k ≠ trace_key key → d1 !! k = d !! k).
  { intros k Hne Hne'. unfold d1, d0. by rewrite !lookup_insert_ne. }
  assert (Hd1key : d1 !! key = Some (VFloat (inv_fn x))).
  { unfold d1, d0. rewrite lookup_insert_ne by (symmetry; apply Hnt).
    by rewrite lookup_insert_eq. }
  assert (Hd1tr : d1 !! trace_key key = Some (VTrace (removelast (traces d key)))).
  { unfold d1. by rewrite lookup_insert_eq. }
  assert (Hd1other : ∀ k, k ≠ key → traces d1 k = traces d k).
  { intros k Hne. unfold d1. rewrite traces_insert_ne, Htr0; [done|].
    intros Heq. by apply trace_key_inj in Heq. }
  destruct (IH d1) as (d2 & Hloop & Hin & Hout).
  { apply Hrest. intros k Hk. apply Hd1; [by intros ->|].
    eapply trace_key_not_key; [done|by right]. }
  { intros k Hk. rewrite Hd1other by by intros ->. apply Htop. by right. }
  exists d2. split; [done|]. split.
  - intros k [->|Hk]%elem_of_cons.
    + exists x. split; [done|]. split.
      * rewrite Hout; [done|done|].
        intros k' Hk'. eapply trace_key_not_key; [done|left].
      * rewrite Hout; [done| |].
        -- intros Hbad. destruct Hkeys0 as (_ & Hnt0 & _). apply (Hnt0 key). by right.
        -- intros k' Hk' Heq%trace_key_inj. by subst k'.
    + destruct (Hin k Hk) as (x' & Hx' & Hv & Ht). exists x'.
      assert (Hne : k ≠ key) by by intros ->.
      rewrite Hd1 in Hx'; [|done|eapply trace_key_not_key; [done|by right]].
      split; [done|]. split; [done|]. by rewrite Ht, Hd1other.
  - intros k [Hne Hk]%not_elem_of_cons Hntk.
    rewrite Hout; [|done|intros k' Hk'; apply Hntk; by right].
    apply Hd1; [done|]. apply Hntk. left.
Qed.

(** X11: the invertible transform of the tests undoes itself.  On a record
    that holds a number under each configured key, [Inv.__call__] followed
    by [Inv.inverse] on its result both return, each on a copy; when
    [inv_fn] undoes [fwd_fn] on the numbers of the record, the final record
    has the values of the first under the keys, the trace stack that each
    key had before (empty when there was none), and nothing else changed;
    it is the first record itself when every key had a trace stack
    already. *)
Theorem Inv_round_trip cls self fwd_fn inv_fn keys d R :
  keys_of_record keys d →
  (∀ k x, k ∈ keys → d !! k = Some (VFloat x) → inv_fn (fwd_fn x) = x) →
  ∃ d1 d2,
    leaf_call (Inv cls self fwd_fn inv_fn keys) R (PMap d) = (R, (PMap d, Ok (Some (PMap d1)))) ∧
    leaf_inverse (Inv cls self fwd_fn inv_fn keys) NotPassed (PMap d1) =
      (PMap d1, Ok (Some (PMap d2))) ∧
    (∀ k, k ∈ keys → d2 !! k = d !! k ∧ d2 !! trace_key k = Some (VTrace (traces d k))) ∧
    (∀ k, k ∉ keys → (∀ k', k' ∈ keys → k ≠ trace_key k') → d2 !! k = d !! k) ∧
    ((∀ k, k ∈ keys → touched d k) → d2 = d).
Proof.
  intros Hkeys Hinv.
  destruct (Inv_call_loop_lookup cls self fwd_fn keys d Hkeys) as (d1 & Hcall & Hin1 & Hout1).
  assert (Hkeys1 : keys_of_record keys d1).
  { destruct Hkeys as (Hnd & Hnt & Hval). split; [done|]. split; [done|].
    intros k Hk. destruct (Hin1 k Hk) as (x & _ & Hx & _). eauto. }
  destruct (Inv_inverse_loop_lookup cls self inv_fn keys d1 Hkeys1) as (d2 & Hinverse & Hin2 & Hout2).
  { intros k Hk. destruct (Hin1 k Hk) as (x & _ & _ & Ht).
    exists (TraceEntry cls self ∅). by rewrite Ht, last_snoc. }
  assert (Hkeys_eq : ∀ k, k ∈ keys →
            d2 !! k = d !! k ∧ d2 !! trace_key k = Some (VTrace (traces d k))).
  { intros k Hk. destruct (Hin1 k Hk) as (x & Hx & Hx1 & Ht).
    destruct (Hin2 k Hk) as (x' & Hx' & Hx2 & Ht2).
    rewrite Hx1 in Hx'. injection Hx' as <-.
    rewrite Hx2, Hx, (Hinv k x Hk Hx). split; [done|].
    by rewrite Ht2, Ht, removelast_last. }
  assert (Hother : ∀ k, k ∉ keys → (∀ k', k' ∈ keys → k ≠ trace_key k') → d2 !! k = d !! k).
  { intros k Hk Hntk. by rewrite Hout2, Hout1. }
  exists d1, d2. split; [|split; [|split; [done|split; [done|]]]].
  - unfold Inv, on_copy. cbn [leaf_call]. by rewrite Hcall.
  - unfold Inv, on_copy. cbn [leaf_inverse]. by rewrite Hinverse.
  - intros Htouched. apply map_eq. intros k.
    destruct (decide (k ∈ keys)) as [Hk|Hk]; [by apply Hkeys_eq|].
    destruct (decide (Exists (λ k', k = trace_key k') keys)) as [Hex|Hex].
    + apply Exists_exists in Hex as (k' & Hk' & ->).
      destruct (Hkeys_eq k' Hk') as [_ ->].
      destruct (Htouched k' Hk') as [l Hl]. unfold traces. by rewrite Hl.
    + apply Hother; [done|]. intros k' Hk' ->. apply Hex, Exists_exists. eauto.
Qed.

(** *** A pipeline with nothing to invert *)

Lemma inverse_loop_no_invertible_member keys ts d h :
  Forall (λ t, is_Invertible t = false) ts → inverse_loop keys ts d h = (h, Ok d).
Proof.
  induction 1 as [|t ts Ht _ IH]; [done|].
  by rewrite inverse_loop_cons, IH, Ht.
Qed.

(** X12: with no invertible member, [Compose.inverse] of a mapping returns
    its copy of the mapping as it made it, and allocates nothing else. *)
Theorem Compose_inverse_no_invertible_member ts keys data h m :
  Forall (λ t, is_Invertible t = false) ts →
  deref h data = PMap m →
  Compose_inverse ts keys data h = (h ++ [PMap m], Ok (length h)).
Proof.
  intros Hts Hdata. unfold Compose_inverse, Compose_inverse_with. rewrite Hdata.
  simpl. fold (inverse_loop keys ts (length h) (h ++ [PMap m])).
  by apply inverse_loop_no_invertible_member.
Qed.

End RoundTrip.

(** * More examples *)

Section MoreExamples.
Local Existing Instance mt19937.
Local Existing Instance mt19937_float.

(** A witness of X4: a member whose [randomize] fails with a
    [RuntimeError], between two that succeed. *)
Lemma Compose_randomize_propagates_witness :
  let e := new_RandomState 0 in
  is_Randomizable (RandFails e) = true ∧
  randomize (RandFails e) PNone =
    (RandFails e, [], Some (RuntimeError "randomize failed")) ∧
  is_TypeError (Some (RuntimeError "randomize failed")) = false ∧
  (Compose_randomize [Rand e] PNone).2 = None ∧
  Compose_randomize ([Rand e] ++ RandFails e :: [Rand e]) PNone =
    ((Compose_randomize [Rand e] PNone).1.1 ++ RandFails e :: [Rand e],
     (Compose_randomize [Rand e] PNone).1.2 ++ [],
     Some (RuntimeError "randomize failed")).
Proof.
  intros e. split; [reflexivity|]. split; [reflexivity|]. split; [reflexivity|].
  split; [reflexivity|].
  apply (Compose_randomize_propagates [Rand e] (RandFails e) [Rand e] PNone);
    reflexivity.
Defined.

(** The first floats of [RandomState(0)], as NumPy gives them. *)
Lemma mt19937_random_seed_0 :
  (samples 3 (new_RandomState 0)).1 =
    [0x1.18fe1565f12a8p-1; 0x1.6e2d4cf608733p-1; 0x1.349d66b6e894bp-1]%float.
Proof. vm_compute. reflexivity. Qed.

(** The validation and the test items of the example listing. *)
Lemma test_three_classes :
  (_generate_data_list three_classes "validation" (new_RandomState 1)).2 =
    Return [Item "AbdomenCT/2.jpeg" 0; Item "BreastMRI/2.jpeg" 1] ∧
  (_generate_data_list three_classes "test" (new_RandomState 1)).2 =
    Return [Item "BreastMRI/1.jpeg" 1; Item "CXR/0.jpeg" 2].
Proof. split; vm_compute; reflexivity. Qed.

(** A witness of X7. *)
Lemma generate_data_list_returns_witness :
  "validation" ∈ ["training"; "validation"; "test"] ∧
  ∃ data,
    _generate_data_list three_classes "validation" (new_RandomState 1) =
      ((samples (length (all_items three_classes)) (new_RandomState 1)).2, Return data) ∧
    sublist data (all_items three_classes).
Proof.
  assert (Hsec : "validation" ∈ ["training"; "validation"; "test"])
    by (repeat constructor).
  split; [exact Hsec|].
  exact (generate_data_list_returns three_classes "validation" (new_RandomState 1) Hsec).
Defined.

(** A witness of X8. *)
Lemma generate_data_list_by_range_witness :
  "test" ∈ ["training"; "validation"; "test"] ∧
  Forall (λ x, is_nan x = false)
         (samples (length (all_items three_classes)) (new_RandomState 1)).1 ∧
  (_generate_data_list three_classes "test" (new_RandomState 1)).2 =
    Return (select (in_range "test") (all_items three_classes)
                   (samples (length (all_items three_classes)) (new_RandomState 1)).1).
Proof.
  assert (Hsec : "test" ∈ ["training"; "validation"; "test"])
    by (repeat constructor).
  assert (Hnan : Forall (λ x, is_nan x = false)
                   (samples (length (all_items three_classes)) (new_RandomState 1)).1)
    by (vm_compute; repeat constructor).
  split; [exact Hsec|]. split; [exact Hnan|].
  exact (generate_data_list_by_range three_classes "test" (new_RandomState 1) Hsec Hnan).
Defined.

(** A witness of X9. *)
Lemma sections_partition_witness :
  Forall (λ x, is_nan x = false)
         (samples (length (all_items three_classes)) (new_RandomState 1)).1 ∧
  ∃ training validation test,
    (_generate_data_list three_classes "training" (new_RandomState 1)).2 = Return training ∧
    (_generate_data_list three_classes "validation" (new_RandomState 1)).2 = Return validation ∧
    (_generate_data_list three_classes "test" (new_RandomState 1)).2 = Return test ∧
    training ++ validation ++ test ≡ₚ all_items three_classes.
Proof.
  assert (Hnan : Forall (λ x, is_nan x = false)
                   (samples (length (all_items three_classes)) (new_RandomState 1)).1)
    by (vm_compute; repeat constructor).
  split; [exact Hnan|].
  exact (sections_partition three_classes (new_RandomState 1) Hnan).
Defined.

(** A witness of X10: a misspelt section name. *)
Lemma section_name_checked_in_the_loop_witness :
("train" ∉ ["training"; "validation"; "test"]) ∧
  _generate_data_list three_classes "train" (new_RandomState 1) =
    if decide (concat three_classes = []) then (new_RandomState 1, Return [])
    else ((MedNISTDataset_randomize (new_RandomState 1)).2,
          Throw (ValueError section_name_error)).
Proof.
  assert (Hsec : "train" ∉ ["training"; "validation"; "test"])
    by (intros [?|[?|?]]%elem_of_sections; discriminate).
  split; [exact Hsec|].
  exact (section_name_checked_in_the_loop three_classes "train" (new_RandomState 1) Hsec).
Defined.

(** A witness of X11: [InvA(KEYS)] on [{"x": 10.0, "y": 20.0}]. *)
Lemma Inv_round_trip_witness :
  keys_of_record KEYS data_xy ∧
  (∀ k x, k ∈ KEYS → data_xy !! k = Some (VFloat x) → (x + 1 - 1)%float = x) ∧
  ∃ d1 d2,
    leaf_call (Inv "InvA" 1 (λ x, x + 1)%float (λ x, x - 1)%float KEYS) None (PMap data_xy) =
      (None, (PMap data_xy, Ok (Some (PMap d1)))) ∧
    leaf_inverse (Inv "InvA" 1 (λ x, x + 1)%float (λ x, x - 1)%float KEYS) NotPassed (PMap d1) =
      (PMap d1, Ok (Some (PMap d2))) ∧
    (∀ k, k ∈ KEYS →
       d2 !! k = data_xy !! k ∧ d2 !! trace_key k = Some (VTrace (traces data_xy k))) ∧
    (∀ k, k ∉ KEYS → (∀ k', k' ∈ KEYS → k ≠ trace_key k') → d2 !! k = data_xy !! k) ∧
    ((∀ k, k ∈ KEYS → touched data_xy k) → d2 = data_xy).
Proof.
  assert (Hinv : ∀ k x, k ∈ KEYS → data_xy !! k = Some (VFloat x) → (x + 1 - 1)%float = x).
  { intros k x Hk.
    apply elem_of_cons in Hk as [->|Hk]; [by intros [= <-]|].
    apply elem_of_cons in Hk as [->|Hk]; [by intros [= <-]|].
    by apply elem_of_nil in Hk. }
  split; [exact KEYS_of_data_xy|]. split; [exact Hinv|].
  exact (Inv_round_trip "InvA" 1 (λ x, x + 1)%float (λ x, x - 1)%float KEYS data_xy None
           KEYS_of_data_xy Hinv).
Defined.

(** A witness of X12. *)
Lemma Compose_inverse_no_invertible_member_witness :
  Forall (λ t, is_Invertible t = false) [NonInv KEYS; X] ∧
  deref [PMap data_xy] 0 = PMap data_xy ∧
  Compose_inverse [NonInv KEYS; X] None 0 [PMap data_xy] =
    ([PMap data_xy] ++ [PMap data_xy], Ok (length [PMap data_xy])).
Proof.
  assert (Hts : Forall (λ t, is_Invertible t = false) [NonInv KEYS; X])
    by (repeat constructor).
  split; [exact Hts|]. split; [reflexivity|].
  exact (Compose_inverse_no_invertible_member [NonInv KEYS; X] None 0 [PMap data_xy]
           data_xy Hts eq_refl).
Defined.

End MoreExamples.
